(** * EggWars spawner / filter generator (eggwars_spawners_filters_gen.py)

    A shallow embedding of [generar_xml_eggwars] and of the pieces of the
    Python runtime it relies on: the compiled pattern [patron], the
    element tree handed back by [ET.parse], the static table
    [CONFIG_GENERADORES], [list.sort] with a key, and [print].

    Conventions.
    - A Python [str] is a [string]; a character is a code point below 256
      (type [ascii]).  On that range [\d] is exactly ['0'..'9'] and [.] is
      every character but the line feed.
    - A Python [dict] is a [gmap]; the dictionaries appended to
      [generadores_encontrados] all have the same five keys and are a
      record.
    - [print] appends to a trace, one entry per call; an entry keeps the
      fields interpolated in the f-string, and [render] gives the text.
    - [ET.parse] is a parameter of the run: it answers with the root
      element or with the exception it raises.
    - The embedding is of the function [generar_xml_eggwars]; the block
      that asks for the path and calls it is left out. *)

From Stdlib Require Import String Ascii List Bool Arith Lia.
From Stdlib Require Import Sorting.Permutation Sorting.Sorted OrderedTypeEx.
From stdpp Require Import gmap strings pretty.
Import ListNotations.

Open Scope string_scope.
Open Scope list_scope.

(* stdpp freezes [String.append] under [simpl]; the proofs below compute
   with it. *)
#[local] Arguments String.append !_ _ / : simpl nomatch.

(** * The program *)

(** ** Strings *)

Module Str.

(** [all c s]: every character of [s] satisfies [c]. *)
Fixpoint all (c : ascii -> bool) (s : string) : bool :=
  match s with
  | EmptyString => true
  | String a s' => c a && all c s'
  end.

(** [strip l s]: [s] without its prefix [l], when [l] is a prefix. *)
Fixpoint strip (l s : string) : option string :=
  match l, s with
  | EmptyString, _ => Some s
  | String a l', String b s' => if Ascii.eqb a b then strip l' s' else None
  | String _ _, EmptyString => None
  end.

(** [contains l s]: [l] occurs somewhere in [s] ([l in s] in Python). *)
Fixpoint contains (l s : string) : bool :=
  match strip l s with
  | Some _ => true
  | None => match s with
            | EmptyString => false
            | String _ s' => contains l s'
            end
  end.

End Str.

(** ** The [re] engine on the fragment used by [patron]

    [re.compile(r"^team-(.+)-generator-(.+)-(\d+)$")] is a sequence of
    literals, capturing groups [(c+)] over a character class, and the end
    anchor.  [Pattern.match] starts at position 0, where [^] holds, and
    runs the backtracking search: a greedy [c+] first takes as many
    characters as it can and gives them back one at a time until the rest
    of the pattern matches. *)

Module Re.

Inductive cls := Dot | Digit.

Definition is_newline (a : ascii) : bool := Ascii.eqb a "010"%char.

Definition is_digit (a : ascii) : bool :=
  ((48 <=? nat_of_ascii a) && (nat_of_ascii a <=? 57))%nat.

Definition in_cls (c : cls) (a : ascii) : bool :=
  match c with
  | Dot => negb (is_newline a)
  | Digit => is_digit a
  end.

Inductive item :=
| Lit (l : string)      (* literal text *)
| Group (c : cls)       (* ( c+ ), greedy, capturing *)
| Dollar.               (* $ *)

(** [$] without MULTILINE: at the end of the string, or just before a
    line feed that is the last character. *)
Definition at_end (s : string) : bool :=
  match s with
  | EmptyString => true
  | String a EmptyString => is_newline a
  | _ => false
  end.

(** Greedy [c+] followed by the continuation [k], which receives the
    text captured and the rest of the subject. *)
Fixpoint greedy {A} (c : ascii -> bool) (k : string -> string -> option A)
    (s : string) : option A :=
  match s with
  | EmptyString => None
  | String a s' =>
      if c a then
        match greedy c (fun g rest => k (String a g) rest) s' with
        | Some r => Some r
        | None => k (String a EmptyString) s'
        end
      else None
  end.

(** [run p s]: the captured groups, in order, of the first successful
    path of the backtracking search of [p] at the start of [s]. *)
Fixpoint run (p : list item) (s : string) : option (list string) :=
  match p with
  | [] => Some []
  | Lit l :: p' =>
      match Str.strip l s with
      | Some rest => run p' rest
      | None => None
      end
  | Group c :: p' =>
      greedy (in_cls c) (fun g rest => cons g <$> run p' rest) s
  | Dollar :: p' => if at_end s then run p' s else None
  end.

End Re.

(** [patron = re.compile(r"^team-(.+)-generator-(.+)-(\d+)$")] *)
Definition patron : list Re.item :=
  [Re.Lit "team-"; Re.Group Re.Dot; Re.Lit "-generator-"; Re.Group Re.Dot;
   Re.Lit "-"; Re.Group Re.Digit; Re.Dollar].

(** [patron.match(region_id)]: [None], or the match object, of which the
    code reads [group(1)], [group(2)] and [group(3)]. *)
Definition patron_match (region_id : string) : option (string * string * string) :=
  match Re.run patron region_id with
  | Some [g1; g2; g3] => Some (g1, g2, g3)
  | _ => None
  end.

(** ** The static table [CONFIG_GENERADORES] *)

(** One [{'lvl': .., 'delay': ..}] entry. *)
Record nivel := Nivel { lvl : nat; delay : string }.

Definition CONFIG_iron : list nivel :=
  [Nivel 1 "1s"; Nivel 2 "0.75s"; Nivel 3 "0.5s"; Nivel 4 "0.25s"].

Definition CONFIG_gold : list nivel :=
  [Nivel 1 "5s"; Nivel 2 "3.5s"; Nivel 3 "2s"; Nivel 4 "1s"].

Definition CONFIG_diamond : list nivel :=
  [Nivel 1 "10s"; Nivel 2 "5s"; Nivel 3 "2.5s"].

Definition CONFIG_GENERADORES : gmap string (list nivel) :=
  <["iron" := CONFIG_iron]>
  (<["gold" := CONFIG_gold]>
  (<["diamond" := CONFIG_diamond]> ∅)).

(** ** The element tree returned by [ET.parse(..).getroot()] *)

#[warnings="-register-all"] Inductive Element :=
  Elem (tag : string) (attrib : gmap string string) (children : list Element).

Definition attrib_of (e : Element) : gmap string string :=
  match e with Elem _ a _ => a end.

(** [root.iter()]: the element itself, then its descendants, in document
    order. *)
Fixpoint iter (e : Element) : list Element :=
  match e with
  | Elem _ _ cs => e :: flat_map iter cs
  end.

(** ** What is printed *)

(** The interpolated fields of one [<variable ...>] line. *)
Record EmittedVariable := MkVariable {
  filter_id : string;
  var_name : string;
  team : string;
  value : nat
}.

(** The interpolated fields of one [<spawner ...>] block. *)
Record EmittedSpawner := MkSpawner {
  spawn_region : string;
  sp_delay : string;
  filter_ref : string;
  item_material : string
}.

(** One entry per [print] call; the three consecutive [print]s of a
    spawner block form one entry. *)
Inductive evento :=
| ETexto (s : string)
| EVariable (v : EmittedVariable)
| ESpawner (s : EmittedSpawner).

Definition q : string := String "034"%char EmptyString.    (* the double quote *)

Definition tab : string := String "009"%char EmptyString.  (* \t *)

Definition nl : string := String "010"%char EmptyString.   (* \n *)

(** [str(i)] of a non-negative [int]. *)
Definition str_int (i : nat) : string := pretty i.

(** The arguments of the [print] calls behind an entry (each is followed
    by a line feed on standard output). *)
Definition render (e : evento) : list string :=
  match e with
  | ETexto s => [s]
  | EVariable v =>
      [tab +:+ "<variable id=" +:+ q +:+ filter_id v +:+ q +:+
       " var=" +:+ q +:+ var_name v +:+ q +:+
       " team=" +:+ q +:+ team v +:+ q +:+ ">" +:+ str_int (value v) +:+
       "</variable>"]
  | ESpawner s =>
      [tab +:+ "<spawner spawn-region=" +:+ q +:+ spawn_region s +:+ q +:+
       " delay=" +:+ q +:+ sp_delay s +:+ q +:+
       " filter=" +:+ q +:+ filter_ref s +:+ q +:+ ">";
       tab +:+ "    <item amount=" +:+ q +:+ "1" +:+ q +:+
       " material=" +:+ q +:+ item_material s +:+ q +:+ "/>";
       tab +:+ "</spawner>"]
  end.

Definition stdout (t : list evento) : list string := flat_map render t.

(** ** Statements that print and may raise *)

Module Py.

(** An exception caught by [except Exception as e], with its [str(e)]. *)
Inductive Exception := Exc (str : string).

Definition str (e : Exception) : string := match e with Exc s => s end.

(** What was printed, and how the statement ended. *)
Definition M (A : Type) : Type := list evento * (Exception + A).

Definition ret {A} (a : A) : M A := ([], inr a).

Definition bind {A B} (m : M A) (f : A -> M B) : M B :=
  match m with
  | (out, inl e) => (out, inl e)
  | (out, inr a) => let '(out', r) := f a in (out ++ out', r)
  end.

Definition print (e : evento) : M unit := ([e], inr tt).

Definition raise {A} (e : Exception) : M A := ([], inl e).

Definition lift {A} (r : Exception + A) : M A := ([], r).

(** [try: body except Exception as e: handler(e)] *)
Definition try_except {A} (body : M A) (handler : Exception -> M A) : M A :=
  match body with
  | (out, inl e) => let '(out', r) := handler e in (out ++ out', r)
  | (out, inr a) => (out, inr a)
  end.

(** [for x in l: body(x)] *)
Fixpoint for_each {X} (l : list X) (body : X -> M unit) : M unit :=
  match l with
  | [] => ret tt
  | x :: l' => bind (body x) (fun _ => for_each l' body)
  end.

End Py.

Notation "x <- m ;; k" := (Py.bind m (fun x => k))
  (at level 100, m at next level, right associativity).

Notation "m ;;; k" := (Py.bind m (fun _ => k))
  (at level 100, right associativity).

(** ** [generar_xml_eggwars] *)

(** The dictionary appended to [generadores_encontrados]. *)
Record Region := MkRegion {
  full_id : string;
  color : string;
  material : string;
  num : string;
  team_id : string
}.

(** Body of the loop over [root.iter()] (step 1): the list after one
    more element. *)
Definition buscar_paso (encontrados : list Region) (elem : Element) : list Region :=
  match attrib_of elem !! "id" with
  | Some region_id =>
      match patron_match region_id with
      | Some (color, material, numero) =>
          match CONFIG_GENERADORES !! material with
          | Some _ =>
              encontrados ++
              [ {| full_id := region_id; color := color; material := material;
                   num := numero; team_id := "team-" +:+ color |} ]
          | None => encontrados
          end
      | None => encontrados
      end
  | None => encontrados
  end.

Definition buscar_regiones (root : Element) : list Region :=
  fold_left buscar_paso (iter root) [].

(** The sort key [(x['color'], x['material'], x['num'])] and the order
    of tuples of [str]: the first components that differ decide, by code
    points. *)
Definition clave (x : Region) : string * string * string :=
  (color x, material x, num x).

Definition tuple_lt (a b : string * string * string) : bool :=
  let '(a1, a2, a3) := a in
  let '(b1, b2, b3) := b in
  if negb (String.eqb a1 b1) then String.ltb a1 b1
  else if negb (String.eqb a2 b2) then String.ltb a2 b2
  else String.ltb a3 b3.

(** [list.sort(key=..)]: stable, and it only asks whether one key is
    below another.  The element inserted comes before every element
    already placed, so it goes in front of the first one that is not
    below it. *)
Fixpoint insertar (x : Region) (l : list Region) : list Region :=
  match l with
  | [] => [x]
  | y :: l' => if tuple_lt (clave y) (clave x) then y :: insertar x l' else x :: l
  end.

Fixpoint ordenar (l : list Region) : list Region :=
  match l with
  | [] => []
  | x :: l' => insertar x (ordenar l')
  end.

Definition range (a b : nat) : list nat := seq a (b - a).

Definition max_levels : nat := 4.

(** The display name of the dropped item (step 3). *)
Definition item_material_de (material : string) : string :=
  if String.eqb material "gold" then "gold ingot"
  else if String.eqb material "diamond" then "diamond"
  else if String.eqb material "emerald" then "emerald"
  else "iron ingot".

Definition var_name_de (gen : Region) : string :=
  "team_generator_" +:+ material gen +:+ "_" +:+ num gen.

(** [len(None)] and [for .. in None] raise [TypeError]. *)
Definition len_None : Py.Exception := Py.Exc "object of type 'NoneType' has no len()".

Definition iter_None : Py.Exception := Py.Exc "'NoneType' object is not iterable".

Definition mensaje_sin_regiones : string :=
  "No se encontraron regiones con el formato 'team-*-generator-*-*' en el mapa.".

(** Step 2, level 0. *)
Definition pasada_lv0 (gens : list Region) : Py.M unit :=
  Py.for_each gens (fun gen =>
    Py.print (EVariable {| filter_id := full_id gen +:+ "-lv0";
                           var_name := var_name_de gen;
                           team := team_id gen;
                           value := 0 |})).

(** Step 2, levels [1..max_levels]. *)
Definition pasada_niveles (gens : list Region) : Py.M unit :=
  Py.for_each (range 1 (max_levels + 1)) (fun i =>
    Py.print (ETexto (nl +:+ tab)) ;;;
    Py.for_each gens (fun gen =>
      match CONFIG_GENERADORES !! material gen with
      | None => Py.raise len_None
      | Some config =>
          if (i <=? length config)%nat then
            Py.print (EVariable {| filter_id := full_id gen +:+ "-lv" +:+ str_int i;
                                   var_name := var_name_de gen;
                                   team := team_id gen;
                                   value := i |})
          else Py.ret tt
      end)).

(** Step 3. *)
Definition pasada_spawners (gens : list Region) : Py.M unit :=
  Py.for_each gens (fun gen =>
    match CONFIG_GENERADORES !! material gen with
    | None => Py.raise iter_None
    | Some config_niveles =>
        Py.for_each config_niveles (fun nivel_data =>
          Py.print (ESpawner {| spawn_region := full_id gen;
                                sp_delay := delay nivel_data;
                                filter_ref := full_id gen +:+ "-lv" +:+ str_int (lvl nivel_data);
                                item_material := item_material_de (material gen) |}))
    end).

(** The [try] block, after [ET.parse] and [getroot] have succeeded. *)
Definition procesar (root : Element) : Py.M unit :=
  let generadores_encontrados := buscar_regiones root in
  match generadores_encontrados with
  | [] => Py.print (ETexto mensaje_sin_regiones)
  | _ :: _ =>
      let generadores_encontrados := ordenar generadores_encontrados in
      Py.print (ETexto nl) ;;;
      Py.print (ETexto "") ;;;
      Py.print (ETexto "") ;;;
      Py.print (ETexto (nl +:+ tab)) ;;;
      pasada_lv0 generadores_encontrados ;;;
      pasada_niveles generadores_encontrados ;;;
      Py.print (ETexto (nl +:+ nl)) ;;;
      Py.print (ETexto "") ;;;
      pasada_spawners generadores_encontrados
  end.

(** [generar_xml_eggwars(archivo_mapa)].  [ET_parse] stands for the file
    system and the XML parser: the root element, or the exception raised
    (file not found, malformed document, ...). *)
Definition generar_xml_eggwars (ET_parse : string -> Py.Exception + Element)
    (archivo_mapa : string) : Py.M unit :=
  Py.try_except
    (root <- Py.lift (ET_parse archivo_mapa) ;;
     procesar root)
    (fun e => Py.print (ETexto ("Error procesando el archivo: " +:+ Py.str e))).

(** The entries of a trace that are declarations. *)
Definition variables_de (t : list evento) : list EmittedVariable :=
  flat_map (fun e => match e with EVariable v => [v] | _ => [] end) t.

Definition spawners_de (t : list evento) : list EmittedSpawner :=
  flat_map (fun e => match e with ESpawner s => [s] | _ => [] end) t.

(** * Vocabulary of the properties *)

(** ** The naming convention *)

(** The identifiers [patron] is written for, with what may follow them:
    [team-<t>-generator-<m>-<n>] where [t] and [m] are non-empty and free
    of line feeds and [n] is a non-empty run of digits. *)
Definition sin_salto (s : string) : Prop := Str.all (Re.in_cls Re.Dot) s = true.

Definition digitos (s : string) : Prop := Str.all (Re.in_cls Re.Digit) s = true.

Record forma (s t m n cola : string) : Prop := {
  forma_eq : s = "team-" +:+ t +:+ "-generator-" +:+ m +:+ "-" +:+ n +:+ cola;
  forma_t : t <> "" /\ sin_salto t;
  forma_m : m <> "" /\ sin_salto m;
  forma_n : n <> "" /\ digitos n;
  forma_cola : cola = "" \/ cola = nl
}.

(** The grammar of the naming convention, in the words of the
    specification: the full value is [team-<team>-generator-<material>-
    <number>], team and material non-empty and on one line, the number a
    non-empty run of decimal digits. *)
Definition gramatica (s : string) : Prop := exists t m n, forma s t m n "".

(** ** Step 1: the regions found *)

(** The dictionary appended for an identifier, if any. *)
Definition region_de (region_id : string) : option Region :=
  match patron_match region_id with
  | Some (c, m, n) =>
      match CONFIG_GENERADORES !! m with
      | Some _ => Some (MkRegion region_id c m n ("team-" +:+ c))
      | None => None
      end
  | None => None
  end.

(** The [id] attributes of the document, in the order of [root.iter()]. *)
Definition ids (root : Element) : list string :=
  flat_map (fun e => option_list (attrib_of e !! "id")) (iter root).

(** The regions found keep what the loop stored: the identifier, its
    three groups, the team identifier built from the first group, and a
    material of the table. *)
Definition bien_formada (g : Region) : Prop :=
  region_de (full_id g) = Some g.

(** ** Steps 2 and 3: the declarations

    The variable of a region at a level, and the spawner of a region for
    an entry of its level list (the fields the two f-strings
    interpolate). *)
Definition variable_de (gen : Region) (k : nat) : EmittedVariable :=
  {| filter_id := full_id gen +:+ "-lv" +:+ str_int k;
     var_name := "team_generator_" +:+ material gen +:+ "_" +:+ num gen;
     team := team_id gen;
     value := k |}.

Definition spawner_de (gen : Region) (nivel_data : nivel) : EmittedSpawner :=
  {| spawn_region := full_id gen;
     sp_delay := delay nivel_data;
     filter_ref := full_id gen +:+ "-lv" +:+ str_int (lvl nivel_data);
     item_material := item_material_de (material gen) |}.

Definition config_de (gen : Region) : list nivel :=
  default [] (CONFIG_GENERADORES !! material gen).

Definition configurados (gens : list Region) : Prop :=
  forall g, In g gens -> exists config, CONFIG_GENERADORES !! material g = Some config.

Definition traza_nivel (gens : list Region) (i : nat) : list evento :=
  flat_map (fun g => if (i <=? length (config_de g))%nat
                     then [EVariable (variable_de g i)] else []) gens.

(** ** The sorted list

    [x] may stand before [y]: the key of [y] is not below the key of [x]. *)
Definition clave_le (x y : Region) : Prop := tuple_lt (clave y) (clave x) = false.

(** The regions of a list that have a given key, in their order. *)
Definition con_clave (k : string * string * string) (l : list Region) : list Region :=
  List.filter (fun x => bool_decide (clave x = k)) l.

Definition traza_spawners (gens : list Region) : list evento :=
  flat_map (fun g => flat_map (fun nd => [ESpawner (spawner_de g nd)]) (config_de g)) gens.

(** Everything printed when at least one region was found. *)
Definition traza_declaraciones (gens : list Region) : list evento :=
  [ETexto nl; ETexto ""; ETexto ""; ETexto (nl +:+ tab)] ++
  flat_map (fun g => [EVariable (variable_de g 0)]) gens ++
  flat_map (fun i => ETexto (nl +:+ tab) :: traza_nivel gens i)
    (range 1 (max_levels + 1)) ++
  [ETexto (nl +:+ nl); ETexto ""] ++
  traza_spawners gens.

(** The variables printed for level [k], in the order of the regions. *)
Definition vars_nivel (gens : list Region) (k : nat) : list EmittedVariable :=
  flat_map (fun g => if (k <=? length (config_de g))%nat
                     then [variable_de g k] else []) gens.

(** The variables a region is due: one per level [0..L], [L] the number
    of entries of its material. *)
Definition variables_esperadas (g : Region) : list EmittedVariable :=
  map (variable_de g) (seq 0 (S (length (config_de g)))).

(** The trace of a run on a parsed document, whatever was found. *)
Definition traza (root : Element) : list evento := fst (procesar root).

(** Does the loop of step 1 record a Region for this identifier? *)
Definition es_generador (v : string) : bool :=
  match region_de v with Some _ => true | None => false end.

(** ** Example documents *)

(** A node with an [id] attribute and nothing else. *)
Definition nodo (id : string) : Element := Elem "cuboid" (<["id" := id]> ∅) [].

Definition mapa_ejemplo : Element :=
  Elem "map" ∅
    [Elem "regions" ∅
       [nodo "team-red-generator-iron-1";
        nodo "team-blue-generator-emerald-1";
        Elem "apply" (<["region" := "x"]> ∅) [];
        nodo "spawn-red"]].

Definition id_con_salto : string := "team-red-generator-iron-1" +:+ nl.

Definition parse_ejemplo : string -> Py.Exception + Element :=
  fun archivo => if String.eqb archivo "map.xml" then inr mapa_ejemplo
                 else inl (Py.Exc "[Errno 2] No such file or directory").

Definition region_ejemplo : Region :=
  MkRegion "team-red-generator-iron-1" "red" "iron" "1" "team-red".

Definition mapa_repetido : Element :=
  Elem "map" ∅
    [Elem "regions" ∅
       [nodo "team-red-generator-iron-1"; nodo "team-red-generator-iron-1"]].

Definition mapa_sin_generadores : Element :=
  Elem "map" ∅
    [nodo "team-blue-generator-emerald-1"; nodo "spawn-red"; Elem "kits" ∅ []].

Definition regiones_ejemplo : list Region :=
  [MkRegion "team-red-generator-iron-2" "red" "iron" "2" "team-red";
   MkRegion "team-red-generator-iron-10" "red" "iron" "10" "team-red";
   MkRegion "team-blue-generator-gold-1" "blue" "gold" "1" "team-blue"].

(** ** More vocabulary *)

(** The order of the sort in the words of the specification: by team
    label, then by material, then by index, each compared as text. *)
Definition antes_o_igual (x y : Region) : Prop :=
  String.ltb (color x) (color y) = true \/
  (color x = color y /\
   (String.ltb (material x) (material y) = true \/
    (material x = material y /\
     (String.ltb (num x) (num y) = true \/ num x = num y)))).

(** The regions of a list with a given team label, material and index,
    in their order. *)
Definition con_campos (c m n : string) (l : list Region) : list Region :=
  List.filter (fun x => bool_decide (color x = c /\ material x = m /\ num x = n)) l.

Definition regiones_desordenadas : list Region :=
  [MkRegion "team-red-generator-iron-2" "red" "iron" "2" "team-red";
   MkRegion "team-red-generator-gold-1" "red" "gold" "1" "team-red";
   MkRegion "team-blue-generator-iron-3" "blue" "iron" "3" "team-blue";
   MkRegion "team-red-generator-iron-10" "red" "iron" "10" "team-red"].

(** The identifier the naming convention builds from a team label, a
    material and an index. *)
Definition id_de (t m n : string) : string :=
  "team-" +:+ t +:+ "-generator-" +:+ m +:+ "-" +:+ n.

Definition es_guion (a : ascii) : bool := Ascii.eqb a "-"%char.

(** The number of hyphens of a string. *)
Fixpoint guiones (s : string) : nat :=
  match s with
  | EmptyString => 0
  | String a s' => (if es_guion a then 1 else 0) + guiones s'
  end.

(** The identifiers for which step 1 records a Region, in document
    order. *)
Definition ids_generadores (root : Element) : list string :=
  List.filter es_generador (ids root).

(** The same generators as [mapa_ejemplo], under other tags, with other
    attributes and another nesting. *)
Definition mapa_ejemplo_bis : Element :=
  Elem "cuboid" (<["id" := "team-red-generator-iron-1"]> (<["min" := "0,0,0"]> ∅))
    [Elem "x" ∅ [Elem "y" (<["name" := "team-red"]> ∅) []]].

Definition mapa_dos : Element :=
  Elem "map" ∅
    [nodo "team-red-generator-iron-1"; nodo "team-blue-generator-gold-2"].

Definition mapa_dos_invertido : Element :=
  Elem "map" ∅
    [Elem "regions" ∅ [nodo "team-blue-generator-gold-2"];
     nodo "team-red-generator-iron-1"].

(** * Properties *)

(** ** Strings *)

Module StrFacts.

Import Str.

Lemma append_assoc (a b c : string) : (a +:+ b) +:+ c = a +:+ (b +:+ c).
Proof. induction a as [|x a IH]; simpl; [reflexivity | now rewrite IH]. Qed.

Lemma append_nil_r (a : string) : a +:+ "" = a.
Proof. induction a as [|x a IH]; simpl; [reflexivity | now rewrite IH]. Qed.

Lemma length_append (a b : string) :
  String.length (a +:+ b) = String.length a + String.length b.
Proof. induction a as [|x a IH]; simpl; [reflexivity | now rewrite IH]. Qed.

Lemma all_append c (a b : string) : all c (a +:+ b) = all c a && all c b.
Proof.
  induction a as [|x a IH]; simpl; [reflexivity|].
  now rewrite IH, andb_assoc.
Qed.

Lemma strip_Some (l s r : string) : strip l s = Some r <-> s = l +:+ r.
Proof.
  revert s; induction l as [|a l IH]; intros s; simpl.
  - split; congruence.
  - destruct s as [|b s]; [split; discriminate|].
    destruct (Ascii.eqb_spec a b) as [->|Hne].
    + rewrite IH. split; congruence.
    + split; [discriminate | congruence].
Qed.

Lemma strip_append (l r : string) : strip l (l +:+ r) = Some r.
Proof. now apply strip_Some. Qed.

Lemma append_inj_l (a a' b b' : string) :
  String.length a = String.length a' -> a +:+ b = a' +:+ b' -> a = a' /\ b = b'.
Proof.
  revert a'; induction a as [|x a IH]; intros [|x' a']; simpl; try discriminate.
  - auto.
  - intros Hl He. injection Hl as Hl. injection He as -> He.
    destruct (IH _ Hl He) as [-> ->]. auto.
Qed.

Lemma append_inj_r (a a' b b' : string) :
  String.length b = String.length b' -> a +:+ b = a' +:+ b' -> a = a' /\ b = b'.
Proof.
  intros Hl He. apply append_inj_l; [|exact He].
  apply (f_equal String.length) in He. rewrite !length_append in He. lia.
Qed.

(** Two ways of cutting one string: the shorter left part is a prefix of
    the longer one. *)
Lemma append_split (a b a' b' : string) :
  a +:+ b = a' +:+ b' -> String.length a <= String.length a' ->
  exists d, a' = a +:+ d /\ b = d +:+ b'.
Proof.
  revert a'; induction a as [|x a IH]; intros a' He Hl; simpl in *.
  - exists a'. auto.
  - destruct a' as [|x' a']; simpl in *; [lia|].
    injection He as -> He.
    destruct (IH a' He ltac:(lia)) as (d & -> & ->). exists d. auto.
Qed.

End StrFacts.

Example patron_match_ex1 :
  patron_match "team-red-generator-iron-1" = Some ("red", "iron", "1").
Proof. reflexivity. Qed.

Example patron_match_ex2 :
  patron_match "team-a-generator-b-generator-gold-12" = Some ("a-generator-b", "gold", "12").
Proof. reflexivity. Qed.

Example patron_match_ex3 : patron_match "team-red-generator-iron-" = None.
Proof. reflexivity. Qed.

Example patron_match_ex4 : patron_match "xteam-red-generator-iron-1" = None.
Proof. reflexivity. Qed.

(** The example of the specification: one iron generator gives five
    variables and four spawners, with [iron ingot] as item. *)
Example declaraciones_ejemplo :
  let t := fst (generar_xml_eggwars (fun _ => inr mapa_ejemplo) "map.xml") in
  length (variables_de t) = 5 /\ length (spawners_de t) = 4 /\
  nth 4 (stdout t) "" =
    tab +:+ "<variable id=" +:+ q +:+ "team-red-generator-iron-1-lv0" +:+ q +:+
    " var=" +:+ q +:+ "team_generator_iron_1" +:+ q +:+
    " team=" +:+ q +:+ "team-red" +:+ q +:+ ">0</variable>" /\
  nth 16 (stdout t) "" =
    tab +:+ "    <item amount=" +:+ q +:+ "1" +:+ q +:+
    " material=" +:+ q +:+ "iron ingot" +:+ q +:+ "/>".
Proof. vm_compute. repeat split. Qed.

Example buscar_ejemplo :
  buscar_regiones mapa_ejemplo =
  [MkRegion "team-red-generator-iron-1" "red" "iron" "1" "team-red"].
Proof. vm_compute. reflexivity. Qed.

(** ** What the backtracking search computes *)

Section Greedy.
Context {A : Type} (c : ascii -> bool).

(** When greedy [c+] fails, the continuation fails on every non-empty
    run of [c] characters at the start of the subject. *)
Lemma greedy_None (k : string -> string -> option A) (s : string) :
  Re.greedy c k s = None ->
  forall g rest, s = g +:+ rest -> g <> "" -> Str.all c g = true -> k g rest = None.
Proof.
  revert k; induction s as [|a s IH]; intros k H g rest E Hg Hc.
  - destruct g; [congruence | discriminate].
  - destruct g as [|a' g]; [congruence|].
    simpl in E. injection E as <- E. simpl in Hc.
    apply andb_prop in Hc as [Ha Hc]. simpl in H. rewrite Ha in H.
    destruct (Re.greedy c (fun g0 rest0 => k (String a g0) rest0) s) eqn:G;
      [discriminate|].
    destruct g as [|b g].
    + simpl in E. now subst.
    + apply (IH _ G (String b g) rest E); [discriminate | exact Hc].
Qed.

(** When it succeeds, the group is the longest such run on which the
    continuation succeeds. *)
Lemma greedy_Some (k : string -> string -> option A) (s : string) (r : A) :
  Re.greedy c k s = Some r ->
  exists g rest,
    s = g +:+ rest /\ g <> "" /\ Str.all c g = true /\ k g rest = Some r /\
    forall g' rest', s = g' +:+ rest' -> Str.all c g' = true ->
      String.length g < String.length g' -> k g' rest' = None.
Proof.
  revert k; induction s as [|a s IH]; intros k H; simpl in H; [discriminate|].
  destruct (c a) eqn:Ha; [|discriminate].
  destruct (Re.greedy c (fun g0 rest0 => k (String a g0) rest0) s) as [r'|] eqn:G.
  - injection H as ->.
    destruct (IH _ G) as (g & rest & -> & Hg & Hc & Hk & Hmax).
    exists (String a g), rest. simpl. rewrite Ha, Hc.
    repeat split; [discriminate | exact Hk |].
    intros g' rest' E Hc' Hl. destruct g' as [|a' g']; [simpl in Hl; lia|].
    simpl in E. injection E as <- E. simpl in Hc'.
    apply andb_prop in Hc' as [_ Hc']. simpl in Hl.
    apply (Hmax g' rest' E Hc'). lia.
  - exists (String a ""), s. simpl. rewrite Ha.
    repeat split; [discriminate | exact H |].
    intros g' rest' E Hc' Hl. destruct g' as [|a' g']; [simpl in Hl; lia|].
    simpl in E. injection E as <- E. simpl in Hc'.
    apply andb_prop in Hc' as [_ Hc']. simpl in Hl.
    apply (greedy_None _ _ G g' rest' E); [|exact Hc'].
    destruct g'; [simpl in Hl; lia | discriminate].
Qed.

End Greedy.

Lemma at_end_true (s : string) : Re.at_end s = true <-> s = "" \/ s = nl.
Proof.
  destruct s as [|a [|b s]]; simpl.
  - split; auto.
  - unfold Re.is_newline, nl. destruct (Ascii.eqb_spec a "010"%char) as [->|Hne].
    + split; auto.
    + split; [discriminate|]. intros [H|H]; [discriminate | congruence].
  - split; [discriminate|]. intros [H|H]; discriminate.
Qed.

(** The tail of [patron], from the last group on. *)
Lemma run_num_Some (s : string) gs :
  Re.run [Re.Group Re.Digit; Re.Dollar] s = Some gs ->
  exists n cola, gs = [n] /\ s = n +:+ cola /\ n <> "" /\ digitos n /\
                 (cola = "" \/ cola = nl).
Proof.
  cbn [Re.run]. intros H.
  apply greedy_Some in H as (n & cola & -> & Hn & Hd & Hk & _).
  destruct (Re.at_end cola) eqn:E; [|discriminate].
  apply at_end_true in E. injection Hk as <-.
  now exists n, cola.
Qed.

Lemma run_num_None (s : string) :
  Re.run [Re.Group Re.Digit; Re.Dollar] s = None ->
  forall n cola, s = n +:+ cola -> n <> "" -> digitos n ->
                 ~ (cola = "" \/ cola = nl).
Proof.
  cbn [Re.run]. intros H n cola E Hn Hd Hc.
  pose proof (greedy_None _ _ _ H n cola E Hn Hd) as Hk.
  apply at_end_true in Hc. cbv beta in Hk. rewrite Hc in Hk. discriminate.
Qed.

(** From the second group on. *)
Lemma run_mat_Some (s : string) gs :
  Re.run [Re.Group Re.Dot; Re.Lit "-"; Re.Group Re.Digit; Re.Dollar] s = Some gs ->
  exists m n cola,
    gs = [m; n] /\ s = m +:+ "-" +:+ n +:+ cola /\
    (m <> "" /\ sin_salto m) /\ (n <> "" /\ digitos n) /\ (cola = "" \/ cola = nl).
Proof.
  intros H. cbn [Re.run] in H.
  apply greedy_Some in H as (m & rest & -> & Hm & Hc & Hk & _).
  apply fmap_Some in Hk as (gs' & Hk & ->).
  destruct (Str.strip "-" rest) as [r|] eqn:E; [|discriminate].
  apply StrFacts.strip_Some in E as ->.
  apply run_num_Some in Hk as (n & cola & -> & -> & Hn & Hd & Hcola).
  exists m, n, cola. repeat split; auto.
Qed.

Lemma run_mat_None (s : string) :
  Re.run [Re.Group Re.Dot; Re.Lit "-"; Re.Group Re.Digit; Re.Dollar] s = None ->
  forall m n cola, s = m +:+ "-" +:+ n +:+ cola ->
    m <> "" -> sin_salto m -> n <> "" -> digitos n -> ~ (cola = "" \/ cola = nl).
Proof.
  intros H m n cola E Hm Hc Hn Hd Hcola. cbn [Re.run] in H.
  pose proof (greedy_None _ _ _ H m _ E Hm Hc) as Hk. cbv beta in Hk.
  apply fmap_None in Hk. rewrite StrFacts.strip_append in Hk.
  exact (run_num_None _ Hk n cola eq_refl Hn Hd Hcola).
Qed.

Lemma run_patron (s : string) :
  Re.run patron s =
  match Str.strip "team-" s with
  | Some r1 =>
      Re.greedy (Re.in_cls Re.Dot)
        (fun g rest =>
           cons g <$>
           match Str.strip "-generator-" rest with
           | Some r2 =>
               Re.run [Re.Group Re.Dot; Re.Lit "-"; Re.Group Re.Digit; Re.Dollar] r2
           | None => None
           end) r1
  | None => None
  end.
Proof. reflexivity. Qed.

(** A successful match cuts the identifier into its three groups, and no
    other way of cutting it gives a longer first group. *)
Lemma run_patron_Some (s : string) gs :
  Re.run patron s = Some gs ->
  exists t m n cola,
    gs = [t; m; n] /\ forma s t m n cola /\
    forall t' m' n' cola', forma s t' m' n' cola' ->
      String.length t' <= String.length t.
Proof.
  rewrite run_patron. intros H.
  destruct (Str.strip "team-" s) as [r1|] eqn:E1; [|discriminate].
  apply StrFacts.strip_Some in E1 as ->.
  apply greedy_Some in H as (t & rest & -> & Ht & Hct & Hk & Hmax).
  apply fmap_Some in Hk as (gs' & Hk & ->).
  destruct (Str.strip "-generator-" rest) as [r2|] eqn:E2; [|discriminate].
  apply StrFacts.strip_Some in E2 as ->.
  apply run_mat_Some in Hk as (m & n & cola & -> & -> & Hm & Hn & Hcola).
  exists t, m, n, cola. split; [reflexivity|]. split; [now constructor|].
  intros t' m' n' cola' [E [Ht' Hct'] [Hm' Hcm'] [Hn' Hdn'] Hcola'].
  apply String.app_inj in E.
  destruct (le_lt_dec (String.length t') (String.length t)) as [Hle|Hlt];
    [exact Hle | exfalso].
  specialize (Hmax t' _ E Hct' Hlt). cbv beta in Hmax.
  apply fmap_None in Hmax. rewrite StrFacts.strip_append in Hmax.
  exact (run_mat_None _ Hmax m' n' cola' eq_refl Hm' Hcm' Hn' Hdn' Hcola').
Qed.

Lemma run_patron_None (s : string) :
  Re.run patron s = None -> forall t m n cola, ~ forma s t m n cola.
Proof.
  rewrite run_patron. intros H t m n cola [E [Ht Hct] [Hm Hcm] [Hn Hdn] Hcola].
  subst s. rewrite StrFacts.strip_append in H.
  pose proof (greedy_None _ _ _ H t _ eq_refl Ht Hct) as Hk. cbv beta in Hk.
  apply fmap_None in Hk. rewrite StrFacts.strip_append in Hk.
  exact (run_mat_None _ Hk m n cola eq_refl Hm Hcm Hn Hdn Hcola).
Qed.

Lemma patron_match_Some (s t m n : string) :
  patron_match s = Some (t, m, n) ->
  exists cola, forma s t m n cola /\
    forall t' m' n' cola', forma s t' m' n' cola' ->
      String.length t' <= String.length t.
Proof.
  unfold patron_match. destruct (Re.run patron s) as [gs|] eqn:E; [|discriminate].
  apply run_patron_Some in E as (t0 & m0 & n0 & cola & -> & Hf & Hmax).
  intros [= <- <- <-]. now exists cola.
Qed.

Lemma patron_match_None (s : string) :
  patron_match s = None -> forall t m n cola, ~ forma s t m n cola.
Proof.
  unfold patron_match. destruct (Re.run patron s) as [gs|] eqn:E.
  - apply run_patron_Some in E as (t0 & m0 & n0 & cola & -> & _). discriminate.
  - intros _. now apply run_patron_None.
Qed.

Lemma patron_match_forma (s t m n cola : string) :
  forma s t m n cola -> exists t' m' n', patron_match s = Some (t', m', n').
Proof.
  intros Hf. destruct (patron_match s) as [[[t' m'] n']|] eqn:E.
  - now exists t', m', n'.
  - exfalso. exact (patron_match_None _ E _ _ _ _ Hf).
Qed.

(** What [patron] accepts: the identifiers of the grammar, and those
    followed by one final line feed. *)
Lemma patron_match_acepta (s : string) :
  patron_match s <> None <->
  gramatica s \/ exists s0, gramatica s0 /\ s = s0 +:+ nl.
Proof.
  split.
  - destruct (patron_match s) as [[[t m] n]|] eqn:E; [intros _ | congruence].
    apply patron_match_Some in E as (cola & Hf & _).
    destruct (forma_cola _ _ _ _ _ Hf) as [->| ->].
    + left. now exists t, m, n.
    + right. exists ("team-" +:+ t +:+ "-generator-" +:+ m +:+ "-" +:+ n).
      destruct Hf as [E Ht Hm Hn _]. split.
      * exists t, m, n. constructor; auto. now rewrite StrFacts.append_nil_r.
      * rewrite E. now rewrite !StrFacts.append_assoc.
  - intros [(t & m & n & Hf) | (s0 & (t & m & n & Hf) & ->)].
    + destruct (patron_match_forma _ _ _ _ _ Hf) as (? & ? & ? & ->). discriminate.
    + assert (Hf' : forma (s0 +:+ nl) t m n nl).
      { destruct Hf as [E Ht Hm Hn _]. constructor; auto.
        rewrite E, StrFacts.append_nil_r. now rewrite !StrFacts.append_assoc. }
      destruct (patron_match_forma _ _ _ _ _ Hf') as (? & ? & ? & ->). discriminate.
Qed.

(** An identifier of the grammar does not end with a line feed. *)
Lemma gramatica_sin_salto_final (s0 : string) : ~ gramatica (s0 +:+ nl).
Proof.
  intros (t & m & n & [E _ _ [Hn Hd] _]).
  rewrite StrFacts.append_nil_r in E.
  replace ("team-" +:+ t +:+ "-generator-" +:+ m +:+ "-" +:+ n)
    with (("team-" +:+ t +:+ "-generator-" +:+ m +:+ "-") +:+ n) in E
    by now rewrite !StrFacts.append_assoc.
  destruct (le_lt_dec (String.length s0)
              (String.length ("team-" +:+ t +:+ "-generator-" +:+ m +:+ "-")))
    as [Hle|Hlt].
  - destruct (StrFacts.append_split _ _ _ _ E Hle) as (d & _ & Hnl).
    destruct d as [|x d].
    + simpl in Hnl. subst n. discriminate Hd.
    + destruct d; [|discriminate]. destruct n; [congruence | discriminate].
  - symmetry in E.
    destruct (StrFacts.append_split _ _ _ _ E ltac:(lia)) as (d & _ & Hn').
    subst n. unfold digitos in Hd. rewrite StrFacts.all_append in Hd.
    apply andb_prop in Hd as [_ Hd]. discriminate Hd.
Qed.

(** ** Step 1: the regions found *)

Lemma buscar_paso_app (acc : list Region) (e : Element) :
  buscar_paso acc e =
  acc ++ flat_map (fun v => option_list (region_de v)) (option_list (attrib_of e !! "id")).
Proof.
  unfold buscar_paso, region_de.
  destruct (attrib_of e !! "id") as [v|]; simpl; [|now rewrite app_nil_r].
  destruct (patron_match v) as [[[c m] n]|]; simpl; [|now rewrite app_nil_r].
  destruct (CONFIG_GENERADORES !! m); simpl; rewrite ?app_nil_r; reflexivity.
Qed.

Lemma buscar_regiones_ids (root : Element) :
  buscar_regiones root = flat_map (fun v => option_list (region_de v)) (ids root).
Proof.
  unfold buscar_regiones, ids.
  enough (H : forall l acc,
    fold_left buscar_paso l acc =
    acc ++ flat_map (fun v => option_list (region_de v))
             (flat_map (fun e => option_list (attrib_of e !! "id")) l))
    by apply (H _ []).
  induction l as [|e l IH]; intros acc; simpl.
  - now rewrite app_nil_r.
  - rewrite IH, buscar_paso_app, flat_map_app, app_assoc. reflexivity.
Qed.

Lemma in_buscar_regiones (root : Element) (g : Region) :
  In g (buscar_regiones root) <->
  In (full_id g) (ids root) /\ region_de (full_id g) = Some g.
Proof.
  rewrite buscar_regiones_ids, in_flat_map. split.
  - intros (v & Hv & Hg). destruct (region_de v) as [g'|] eqn:E; simpl in Hg;
      [|contradiction].
    destruct Hg as [->|[]].
    assert (full_id g = v) as ->; [|auto].
    unfold region_de in E. destruct (patron_match v) as [[[c m] n]|]; [|discriminate].
    destruct (CONFIG_GENERADORES !! m); [|discriminate]. now injection E as <-.
  - intros [Hv Hg]. exists (full_id g). rewrite Hg. simpl. auto.
Qed.

(** The materials of the table. *)
Lemma CONFIG_lookup (m : string) (config : list nivel) :
  CONFIG_GENERADORES !! m = Some config <->
  (m = "iron" /\ config = CONFIG_iron) \/
  (m = "gold" /\ config = CONFIG_gold) \/
  (m = "diamond" /\ config = CONFIG_diamond).
Proof.
  unfold CONFIG_GENERADORES.
  rewrite !lookup_insert_Some, lookup_empty. split.
  - intros [[<- <-]|[_ [[<- <-]|[_ [[<- <-]|[_ ?]]]]]]; auto. discriminate.
  - intros [[-> ->]|[[-> ->]|[-> ->]]].
    + auto.
    + right. split; [discriminate|]. auto.
    + right. split; [discriminate|]. right. split; [discriminate|]. auto.
Qed.

(** Every level list is [1..L] with [L <= max_levels]. *)
Lemma CONFIG_niveles (m : string) (config : list nivel) :
  CONFIG_GENERADORES !! m = Some config ->
  map lvl config = seq 1 (length config) /\ length config <= max_levels.
Proof.
  intros H. apply CONFIG_lookup in H as [[_ ->]|[[_ ->]|[_ ->]]];
    (split; [reflexivity | unfold max_levels; simpl; lia]).
Qed.

Lemma bien_formada_inv (g : Region) :
  bien_formada g ->
  patron_match (full_id g) = Some (color g, material g, num g) /\
  team_id g = "team-" +:+ color g /\
  exists config, CONFIG_GENERADORES !! material g = Some config.
Proof.
  unfold bien_formada, region_de.
  destruct (patron_match (full_id g)) as [[[c m] n]|]; [|discriminate].
  destruct (CONFIG_GENERADORES !! m) as [config|] eqn:E; [|discriminate].
  intros [= <-]. simpl. rewrite E. eauto.
Qed.

Lemma bien_formada_eq (g g' : Region) :
  bien_formada g -> bien_formada g' -> full_id g = full_id g' -> g = g'.
Proof. unfold bien_formada. intros H H' E. rewrite E in H. congruence. Qed.

Lemma buscar_bien_formada (root : Element) (g : Region) :
  In g (buscar_regiones root) -> bien_formada g.
Proof. intros H. now apply in_buscar_regiones in H. Qed.

(** ** Steps 2 and 3: what the passes print *)

Lemma bind_ok {A B} (out : list evento) (a : A) (f : A -> Py.M B) out' r :
  f a = (out', r) -> Py.bind (out, inr a) f = (out ++ out', r).
Proof. intros H. unfold Py.bind. now rewrite H. Qed.

Lemma for_each_ok {X} (l : list X) (body : X -> Py.M unit) (f : X -> list evento) :
  (forall x, In x l -> body x = (f x, inr tt)) ->
  Py.for_each l body = (flat_map f l, inr tt).
Proof.
  induction l as [|x l IH]; intros H; simpl; [reflexivity|].
  rewrite (H x (or_introl eq_refl)).
  apply bind_ok. apply IH. intros y Hy. apply H. now right.
Qed.

Lemma pasada_lv0_ok (gens : list Region) :
  pasada_lv0 gens = (flat_map (fun g => [EVariable (variable_de g 0)]) gens, inr tt).
Proof. unfold pasada_lv0. now apply for_each_ok. Qed.

(** ** The order of the keys and [ordenar] *)

Module Orden.

Lemma ltb_lt (a b : string) : String.ltb a b = true <-> String_as_OT.lt a b.
Proof.
  unfold String.ltb. rewrite <- String_as_OT.cmp_lt. unfold String_as_OT.cmp.
  destruct (String.compare a b); split; congruence.
Qed.

Lemma ltb_irrefl (a : string) : String.ltb a a = false.
Proof.
  destruct (String.ltb a a) eqn:E; [|reflexivity].
  apply ltb_lt in E. apply String_as_OT.lt_not_eq in E.
  exfalso. apply E. reflexivity.
Qed.

Lemma ltb_trans (a b c : string) :
  String.ltb a b = true -> String.ltb b c = true -> String.ltb a c = true.
Proof. rewrite !ltb_lt. apply String_as_OT.lt_trans. Qed.

Lemma ltb_asym (a b : string) : String.ltb a b = true -> String.ltb b a = false.
Proof.
  intros H. destruct (String.ltb b a) eqn:E; [|reflexivity].
  pose proof (ltb_trans _ _ _ H E) as F. now rewrite ltb_irrefl in F.
Qed.

Lemma ltb_total (a b : string) :
  String.ltb a b = false -> String.ltb b a = false -> a = b.
Proof.
  unfold String.ltb. rewrite (String.compare_antisym b a).
  destruct (String.compare a b) eqn:E; simpl; try discriminate.
  intros _ _. now apply String.compare_eq_iff.
Qed.

Ltac casos :=
  repeat match goal with
  | |- context [String.eqb ?x ?y] =>
      destruct (String.eqb_spec x y); subst; simpl
  | H : context [String.eqb ?x ?y] |- _ =>
      destruct (String.eqb_spec x y); subst; simpl in H
  end.

Lemma tuple_lt_irrefl a : tuple_lt a a = false.
Proof.
  destruct a as [[a1 a2] a3]. unfold tuple_lt.
  rewrite !String.eqb_refl. simpl. apply ltb_irrefl.
Qed.

Lemma tuple_lt_trans a b c :
  tuple_lt a b = true -> tuple_lt b c = true -> tuple_lt a c = true.
Proof.
  destruct a as [[a1 a2] a3], b as [[b1 b2] b3], c as [[c1 c2] c3].
  unfold tuple_lt. intros H1 H2. casos;
    try congruence; eauto using ltb_trans;
    try (rewrite (ltb_asym _ _ H1) in H2; discriminate);
    try (rewrite ltb_irrefl in *; discriminate).
Qed.

Lemma tuple_lt_total a b :
  tuple_lt a b = false -> tuple_lt b a = false -> a = b.
Proof.
  destruct a as [[a1 a2] a3], b as [[b1 b2] b3].
  unfold tuple_lt. intros H1 H2. casos; try congruence;
    try (now rewrite (ltb_total _ _ H1 H2) in * );
    exfalso; eauto using ltb_total.
Qed.

Lemma tuple_lt_asym a b : tuple_lt a b = true -> tuple_lt b a = false.
Proof.
  intros H. destruct (tuple_lt b a) eqn:E; [|reflexivity].
  pose proof (tuple_lt_trans _ _ _ H E) as F. now rewrite tuple_lt_irrefl in F.
Qed.

Lemma clave_le_trans x y z : clave_le x y -> clave_le y z -> clave_le x z.
Proof.
  unfold clave_le. intros Hxy Hyz.
  destruct (tuple_lt (clave z) (clave x)) eqn:Hzx; [exfalso | reflexivity].
  destruct (tuple_lt (clave x) (clave y)) eqn:Hxy'.
  - pose proof (tuple_lt_trans _ _ _ Hzx Hxy'). congruence.
  - rewrite <- (tuple_lt_total _ _ Hxy' Hxy) in Hyz. congruence.
Qed.

Lemma clave_le_antisym x y : clave_le x y -> clave_le y x -> clave x = clave y.
Proof. unfold clave_le. intros H1 H2. now apply tuple_lt_total. Qed.

Lemma insertar_perm x l : Permutation (insertar x l) (x :: l).
Proof.
  induction l as [|y l IH]; cbn [insertar ordenar List.filter]; [reflexivity|].
  destruct (tuple_lt (clave y) (clave x)); [|reflexivity].
  rewrite IH. apply perm_swap.
Qed.

Lemma ordenar_perm l : Permutation (ordenar l) l.
Proof.
  induction l as [|x l IH]; cbn [insertar ordenar List.filter]; [reflexivity|].
  rewrite insertar_perm. now constructor.
Qed.

Lemma in_ordenar x l : In x (ordenar l) <-> In x l.
Proof.
  split; apply Permutation_in; [|symmetry]; apply ordenar_perm.
Qed.

Lemma insertar_sorted x l :
  StronglySorted clave_le l -> StronglySorted clave_le (insertar x l).
Proof.
  induction 1 as [|y l Hs IH Hy]; cbn [insertar ordenar List.filter].
  - repeat constructor.
  - destruct (tuple_lt (clave y) (clave x)) eqn:E.
    + constructor; [exact IH|].
      rewrite insertar_perm.
      constructor; [|exact Hy]. now apply tuple_lt_asym.
    + constructor; [now constructor|].
      constructor; [exact E|].
      eapply List.Forall_impl; [|exact Hy]. intros z Hz.
      now apply (clave_le_trans x y z).
Qed.

Lemma ordenar_sorted l : StronglySorted clave_le (ordenar l).
Proof.
  induction l as [|x l IH]; cbn [insertar ordenar List.filter]; [constructor | now apply insertar_sorted].
Qed.

Lemma insertar_con_clave k x l :
  con_clave k (insertar x l) = con_clave k (x :: l).
Proof.
  induction l as [|y l IH]; cbn [insertar ordenar List.filter]; [reflexivity|].
  destruct (tuple_lt (clave y) (clave x)) eqn:E; [|reflexivity].
  unfold con_clave in *. cbn [insertar ordenar List.filter] in *. rewrite IH.
  repeat case_bool_decide; try reflexivity.
  subst k. rewrite H0, tuple_lt_irrefl in E. discriminate.
Qed.

Lemma ordenar_con_clave k l : con_clave k (ordenar l) = con_clave k l.
Proof.
  induction l as [|x l IH]; cbn [insertar ordenar List.filter]; [reflexivity|].
  rewrite insertar_con_clave. unfold con_clave in *. cbn [insertar ordenar List.filter]. now rewrite IH.
Qed.

Lemma ordenar_de_ordenada l : StronglySorted clave_le l -> ordenar l = l.
Proof.
  induction 1 as [|x l Hs IH Hx]; cbn [insertar ordenar List.filter]; [reflexivity|].
  rewrite IH. destruct l as [|y l]; cbn [insertar ordenar List.filter]; [reflexivity|].
  apply Forall_inv in Hx. unfold clave_le in Hx. now rewrite Hx.
Qed.

(** Two sorted lists in which the regions of every key come in the same
    order are the same list. *)
Lemma ordenada_unica l1 l2 :
  StronglySorted clave_le l1 -> StronglySorted clave_le l2 ->
  (forall k, con_clave k l1 = con_clave k l2) -> l1 = l2.
Proof.
  intros H1; revert l2; induction H1 as [|x l1 Hs1 IH Hx]; intros l2 H2 Hk.
  - destruct l2 as [|y l2]; [reflexivity|].
    specialize (Hk (clave y)). unfold con_clave in Hk. cbn [List.filter] in Hk.
    rewrite bool_decide_eq_true_2 in Hk by reflexivity. discriminate.
  - destruct H2 as [|y l2 Hs2 Hy].
    + specialize (Hk (clave x)). unfold con_clave in Hk. cbn [List.filter] in Hk.
      rewrite bool_decide_eq_true_2 in Hk by reflexivity. discriminate.
    + assert (Hin : forall (a : Region) (l l' : list Region),
                 con_clave (clave a) l = con_clave (clave a) l' -> In a l -> In a l').
      { intros a l l' E Ha.
        assert (In a (con_clave (clave a) l)) as Ha'.
        { apply filter_In. split; [exact Ha|]. now apply bool_decide_eq_true_2. }
        rewrite E in Ha'. now apply filter_In in Ha'. }
      assert (Hxy : clave x = clave y).
      { apply clave_le_antisym.
        - destruct (Hin y (y :: l2) (x :: l1) (eq_sym (Hk _)) (or_introl eq_refl))
            as [->|Hy1].
          + unfold clave_le. apply tuple_lt_irrefl.
          + rewrite List.Forall_forall in Hx. now apply Hx.
        - destruct (Hin x (x :: l1) (y :: l2) (Hk _) (or_introl eq_refl))
            as [->|Hx2].
          + unfold clave_le. apply tuple_lt_irrefl.
          + rewrite List.Forall_forall in Hy. now apply Hy. }
      assert (x = y) as ->.
      { pose proof (Hk (clave x)) as E. unfold con_clave in E. cbn [List.filter] in E.
        rewrite bool_decide_eq_true_2 in E by reflexivity.
        rewrite bool_decide_eq_true_2 in E by (now symmetry).
        now injection E. }
      f_equal. apply IH; [exact Hs2|].
      intros k. specialize (Hk k). unfold con_clave in *. cbn [List.filter] in Hk.
      destruct (bool_decide (clave y = k)); [now injection Hk | exact Hk].
Qed.

End Orden.

(** ** The trace of a run *)

Lemma config_de_Some (g : Region) (config : list nivel) :
  CONFIG_GENERADORES !! material g = Some config -> config_de g = config.
Proof. unfold config_de. now intros ->. Qed.

Lemma pasada_niveles_ok (gens : list Region) :
  configurados gens ->
  pasada_niveles gens =
  (flat_map (fun i => ETexto (nl +:+ tab) :: traza_nivel gens i)
     (range 1 (max_levels + 1)), inr tt).
Proof.
  intros Hc. unfold pasada_niveles. apply for_each_ok. intros i _.
  apply (bind_ok [ETexto (nl +:+ tab)] tt). apply for_each_ok.
  intros g Hg. destruct (Hc g Hg) as [config E].
  rewrite E, (config_de_Some _ _ E). now destruct (i <=? length config)%nat.
Qed.

Lemma pasada_spawners_ok (gens : list Region) :
  configurados gens -> pasada_spawners gens = (traza_spawners gens, inr tt).
Proof.
  intros Hc. unfold pasada_spawners. apply for_each_ok.
  intros g Hg. destruct (Hc g Hg) as [config E].
  rewrite E, (config_de_Some _ _ E). now apply for_each_ok.
Qed.

Lemma ordenar_configurados (root : Element) :
  configurados (ordenar (buscar_regiones root)).
Proof.
  intros g Hg. apply Orden.in_ordenar, buscar_bien_formada in Hg.
  now apply bien_formada_inv in Hg.
Qed.

Lemma procesar_ok (root : Element) :
  procesar root =
  (match buscar_regiones root with
   | [] => [ETexto mensaje_sin_regiones]
   | _ :: _ => traza_declaraciones (ordenar (buscar_regiones root))
   end, inr tt).
Proof.
  unfold procesar. pose proof (ordenar_configurados root) as Hc.
  destruct (buscar_regiones root) as [|g0 l]; [reflexivity|].
  set (gens := ordenar (g0 :: l)) in *.
  unfold Py.print.
  repeat (eapply (bind_ok [_] tt)).
  rewrite pasada_lv0_ok. eapply bind_ok.
  rewrite (pasada_niveles_ok _ Hc). eapply bind_ok.
  repeat (eapply (bind_ok [_] tt)).
  apply (pasada_spawners_ok _ Hc).
Qed.

(** A successful parse: the run ends normally with the trace of
    [procesar]; a failed one: the handler prints the message. *)
Lemma generar_ok ET_parse (archivo_mapa : string) (root : Element) :
  ET_parse archivo_mapa = inr root ->
  generar_xml_eggwars ET_parse archivo_mapa = (fst (procesar root), inr tt).
Proof.
  intros H. unfold generar_xml_eggwars, Py.lift, Py.try_except, Py.bind.
  rewrite H, procesar_ok. reflexivity.
Qed.

Lemma generar_error ET_parse (archivo_mapa : string) (e : Py.Exception) :
  ET_parse archivo_mapa = inl e ->
  generar_xml_eggwars ET_parse archivo_mapa =
  ([ETexto ("Error procesando el archivo: " +:+ Py.str e)], inr tt).
Proof.
  intros H. unfold generar_xml_eggwars, Py.lift. now rewrite H.
Qed.

(** *** The declarations of a trace *)

Lemma variables_de_app (a b : list evento) :
  variables_de (a ++ b) = variables_de a ++ variables_de b.
Proof. apply flat_map_app. Qed.

Lemma spawners_de_app (a b : list evento) :
  spawners_de (a ++ b) = spawners_de a ++ spawners_de b.
Proof. apply flat_map_app. Qed.

Lemma variables_de_flat_map {X} (f : X -> list evento) (l : list X) :
  variables_de (flat_map f l) = flat_map (fun x => variables_de (f x)) l.
Proof.
  induction l as [|x l IH]; simpl; [reflexivity|].
  now rewrite variables_de_app, IH.
Qed.

Lemma spawners_de_flat_map {X} (f : X -> list evento) (l : list X) :
  spawners_de (flat_map f l) = flat_map (fun x => spawners_de (f x)) l.
Proof.
  induction l as [|x l IH]; simpl; [reflexivity|].
  now rewrite spawners_de_app, IH.
Qed.

Lemma flat_map_nil {X Y} (l : list X) : flat_map (fun _ => @nil Y) l = [].
Proof. induction l; simpl; auto. Qed.

Lemma variables_de_traza_nivel (gens : list Region) (k : nat) :
  variables_de (traza_nivel gens k) = vars_nivel gens k.
Proof.
  unfold traza_nivel, vars_nivel. rewrite variables_de_flat_map.
  apply flat_map_ext. intros g. now destruct (k <=? length (config_de g))%nat.
Qed.

Lemma variables_de_traza (gens : list Region) :
  variables_de (traza_declaraciones gens) =
  flat_map (vars_nivel gens) (seq 0 (max_levels + 1)).
Proof.
  unfold traza_declaraciones. rewrite !variables_de_app.
  rewrite !variables_de_flat_map.
  unfold traza_spawners. rewrite variables_de_flat_map.
  rewrite (flat_map_ext (fun x => variables_de (flat_map _ (config_de x))) (fun _ => [])).
  2:{ intros g. rewrite variables_de_flat_map. apply flat_map_nil. }
  rewrite flat_map_nil. simpl variables_de. rewrite app_nil_r. simpl app.
  unfold range, max_levels. simpl seq. cbn [flat_map].
  rewrite !variables_de_traza_nivel. reflexivity.
Qed.

Lemma spawners_de_traza (gens : list Region) :
  spawners_de (traza_declaraciones gens) =
  flat_map (fun g => map (spawner_de g) (config_de g)) gens.
Proof.
  unfold traza_declaraciones. rewrite !spawners_de_app.
  rewrite !spawners_de_flat_map. simpl spawners_de at 1.
  rewrite (flat_map_ext (fun x => spawners_de [EVariable (variable_de x 0)]) (fun _ => [])) by reflexivity.
  rewrite flat_map_nil.
  rewrite (flat_map_ext (fun x => spawners_de (ETexto (nl +:+ tab) :: traza_nivel gens x)) (fun _ => [])).
  2:{ intros i. unfold traza_nivel. simpl. rewrite spawners_de_flat_map.
      rewrite (flat_map_ext _ (fun _ => [])); [apply flat_map_nil|].
      intros g. now destruct (i <=? length (config_de g))%nat. }
  rewrite flat_map_nil. simpl. unfold traza_spawners. rewrite spawners_de_flat_map.
  apply flat_map_ext. intros g. rewrite spawners_de_flat_map.
  induction (config_de g) as [|nd c IH]; simpl in *; [reflexivity | now rewrite IH].
Qed.

(** ** Declarations and the regions they come from *)

Lemma flat_map_app_perm {X Y} (a b : X -> list Y) (l : list X) :
  Permutation (flat_map (fun x => a x ++ b x) l) (flat_map a l ++ flat_map b l).
Proof.
  induction l as [|x l IH]; simpl; [reflexivity|].
  rewrite IH, <- !app_assoc. apply Permutation_app_head.
  rewrite !app_assoc. apply Permutation_app_tail, Permutation_app_comm.
Qed.

(** Level by level over the regions, or region by region over the
    levels: the same declarations. *)
Lemma flat_map_swap {X Y Z} (f : X -> Y -> list Z) (xs : list X) (ys : list Y) :
  Permutation (flat_map (fun y => flat_map (fun x => f x y) xs) ys)
              (flat_map (fun x => flat_map (fun y => f x y) ys) xs).
Proof.
  induction ys as [|y ys IH]; simpl.
  - now rewrite flat_map_nil.
  - rewrite IH. symmetry. apply flat_map_app_perm.
Qed.

Lemma niveles_de_region {Y} (v : nat -> Y) (L : nat) :
  L <= max_levels ->
  flat_map (fun k => if (k <=? L)%nat then [v k] else []) (seq 0 (max_levels + 1)) =
  map v (seq 0 (S L)).
Proof.
  unfold max_levels. intros H.
  destruct L as [|[|[|[|[|L]]]]]; [reflexivity .. | lia].
Qed.

Lemma vars_nivel_perm (gens : list Region) :
  configurados gens ->
  Permutation (flat_map (vars_nivel gens) (seq 0 (max_levels + 1)))
              (flat_map variables_esperadas gens).
Proof.
  intros Hc. unfold vars_nivel.
  rewrite (flat_map_swap
             (fun g k => if (k <=? length (config_de g))%nat
                         then [variable_de g k] else [])).
  assert (E : forall l : list Region, (forall g, In g l -> In g gens) ->
            flat_map (fun g => flat_map
                        (fun k => if (k <=? length (config_de g))%nat
                                  then [variable_de g k] else [])
                        (seq 0 (max_levels + 1))) l =
            flat_map variables_esperadas l).
  { induction l as [|g l IH]; intros Hl; [reflexivity|].
    cbn [flat_map]. rewrite IH by (intros; apply Hl; now right).
    f_equal. unfold variables_esperadas. apply niveles_de_region.
    destruct (Hc g (Hl g (or_introl eq_refl))) as [config E].
    rewrite (config_de_Some _ _ E). now apply CONFIG_niveles in E. }
  rewrite E by auto. reflexivity.
Qed.

Lemma in_vars_nivel (gens : list Region) (k : nat) (v : EmittedVariable) :
  In v (vars_nivel gens k) <->
  exists g, In g gens /\ k <= length (config_de g) /\ v = variable_de g k.
Proof.
  unfold vars_nivel. rewrite in_flat_map. split.
  - intros (g & Hg & Hv). exists g. split; [exact Hg|].
    destruct (Nat.leb_spec k (length (config_de g))) as [Hle|Hlt].
    + destruct Hv as [<-|[]]. auto.
    + destruct Hv.
  - intros (g & Hg & Hle & ->). exists g. split; [exact Hg|].
    apply Nat.leb_le in Hle. rewrite Hle. now left.
Qed.

Lemma in_variables_de_traza (gens : list Region) (v : EmittedVariable) :
  In v (variables_de (traza_declaraciones gens)) <->
  exists g k, In g gens /\ k <= length (config_de g) /\ k <= max_levels /\
              v = variable_de g k.
Proof.
  rewrite variables_de_traza, in_flat_map. split.
  - intros (k & Hk & Hv). apply in_seq in Hk.
    apply in_vars_nivel in Hv as (g & Hg & Hle & ->).
    exists g, k. repeat split; auto. lia.
  - intros (g & k & Hg & Hle & Hmax & ->). exists k. split.
    + apply in_seq. lia.
    + apply in_vars_nivel. eauto.
Qed.

Lemma in_spawners_de_traza (gens : list Region) (s : EmittedSpawner) :
  In s (spawners_de (traza_declaraciones gens)) <->
  exists g nd, In g gens /\ In nd (config_de g) /\ s = spawner_de g nd.
Proof.
  rewrite spawners_de_traza, in_flat_map. split.
  - intros (g & Hg & Hs). apply in_map_iff in Hs as (nd & <- & Hnd). eauto.
  - intros (g & nd & Hg & Hnd & ->). exists g. split; [exact Hg|].
    apply in_map_iff. eauto.
Qed.

Lemma traza_eq (root : Element) :
  traza root =
  match buscar_regiones root with
  | [] => [ETexto mensaje_sin_regiones]
  | _ :: _ => traza_declaraciones (ordenar (buscar_regiones root))
  end.
Proof. unfold traza. now rewrite procesar_ok. Qed.

Lemma variables_de_traza_root (root : Element) :
  variables_de (traza root) =
  variables_de (traza_declaraciones (ordenar (buscar_regiones root))).
Proof.
  rewrite traza_eq. destruct (buscar_regiones root) eqn:E; [|reflexivity].
  rewrite variables_de_traza. reflexivity.
Qed.

Lemma spawners_de_traza_root (root : Element) :
  spawners_de (traza root) =
  spawners_de (traza_declaraciones (ordenar (buscar_regiones root))).
Proof.
  rewrite traza_eq. destruct (buscar_regiones root) eqn:E; [|reflexivity].
  rewrite spawners_de_traza. reflexivity.
Qed.

Lemma variable_de_inj (g g' : Region) (k k' : nat) :
  bien_formada g -> bien_formada g' ->
  variable_de g k = variable_de g' k' -> g = g' /\ k = k'.
Proof.
  intros Hg Hg' E. injection E as Ef _ _ Ek. subst k'. split; [|reflexivity].
  apply bien_formada_eq; auto.
  now apply StrFacts.append_inj_r in Ef.
Qed.

Lemma spawner_de_inj (g g' : Region) (nd nd' : nivel) :
  bien_formada g -> bien_formada g' ->
  spawner_de g nd = spawner_de g' nd' -> g = g'.
Proof.
  intros Hg Hg' E. injection E as Ef _ _ _. now apply bien_formada_eq.
Qed.

(** * The claims *)

(** What step 1 does with an [id] attribute [v] of the document: if
    [patron] matches [v] with groups [t], [m], [n], then these cut [v] as
    [team-t-generator-m-n], possibly followed by one final line feed, and
    the Region with full identifier [v], team [t], material [m] and index
    [n] is recorded if and only if [m] is a key of the table; when [m] is
    not a key, or when [patron] does not match, no Region is recorded for
    [v].  [patron] matches exactly the identifiers of the grammar and
    those followed by one final line feed.  Every Region recorded comes
    from an [id] attribute in this way, and the run raises nothing. *)
Lemma regiones_extraidas (root : Element) (v : string) :
  In v (ids root) ->
  (forall t m n, patron_match v = Some (t, m, n) ->
     (exists cola, forma v t m n cola) /\
     (In (MkRegion v t m n ("team-" +:+ t)) (buscar_regiones root) <->
      is_Some (CONFIG_GENERADORES !! m)) /\
     (CONFIG_GENERADORES !! m = None ->
      forall g, In g (buscar_regiones root) -> full_id g <> v)) /\
  (patron_match v = None ->
   forall g, In g (buscar_regiones root) -> full_id g <> v) /\
  (patron_match v <> None <->
   gramatica v \/ exists v0, gramatica v0 /\ v = v0 +:+ nl) /\
  (forall g, In g (buscar_regiones root) ->
     In (full_id g) (ids root) /\
     patron_match (full_id g) = Some (color g, material g, num g) /\
     is_Some (CONFIG_GENERADORES !! material g)) /\
  snd (procesar root) = inr tt.
Proof.
  intros Hv. split; [|split; [|split; [|split]]].
  - intros t m n H. split; [|split].
    + apply patron_match_Some in H as (cola & Hf & _). now exists cola.
    + split.
      * intros Hin. apply in_buscar_regiones in Hin as [_ Hr]. simpl in Hr.
        unfold region_de in Hr. rewrite H in Hr.
        destruct (CONFIG_GENERADORES !! m); [eauto | discriminate].
      * intros [config E]. apply in_buscar_regiones. simpl. split; [exact Hv|].
        unfold region_de. now rewrite H, E.
    + intros E g Hg <-. apply in_buscar_regiones in Hg as [_ Hr].
      unfold region_de in Hr. rewrite H, E in Hr. discriminate.
  - intros E g Hg <-. apply in_buscar_regiones in Hg as [_ Hr].
    unfold region_de in Hr. rewrite E in Hr. discriminate.
  - apply patron_match_acepta.
  - intros g Hg. split; [now apply in_buscar_regiones in Hg|].
    apply buscar_bien_formada, bien_formada_inv in Hg as (Hm & _ & config & E).
    split; [exact Hm|]. rewrite E. eauto.
  - now rewrite procesar_ok.
Qed.

Example regiones_extraidas_ejemplo :
  In (MkRegion "team-red-generator-iron-1" "red" "iron" "1" ("team-" +:+ "red"))
     (buscar_regiones mapa_ejemplo) <->
  is_Some (CONFIG_GENERADORES !! "iron").
Proof.
  assert (H : In "team-red-generator-iron-1" (ids mapa_ejemplo))
    by (vm_compute; auto).
  exact (proj1 (proj2 (proj1 (regiones_extraidas mapa_ejemplo _ H)
                         "red" "iron" "1" eq_refl))).
Qed.

(** C1.  The identifier [team-red-generator-iron-1] followed by a line
    feed (an attribute written [id="team-red-generator-iron-1&#10;"]) is
    not an identifier of the grammar [team-<team>-generator-<material>-
    <number>]: it does not end with the number.  [patron] matches it all
    the same, [$] holding before a final line feed, and step 1 records a
    Region for it, whose full identifier carries the line feed. *)
Theorem C1_salto_final :
  In id_con_salto (ids (nodo id_con_salto)) /\
  ~ gramatica id_con_salto /\
  patron_match id_con_salto = Some ("red", "iron", "1") /\
  buscar_regiones (nodo id_con_salto) =
  [MkRegion id_con_salto "red" "iron" "1" "team-red"].
Proof.
  split; [now left|]. split; [|split].
  - apply gramatica_sin_salto_final.
  - vm_compute. reflexivity.
  - vm_compute. reflexivity.
Qed.

(** C2.  On a document that parses, for every extracted region [g], with
    [L] the number of entries of its material: the variables printed are,
    level by level, those of the regions whose material has that level;
    taken together they are the variables due to each region, once per
    region, and the ones due to [g] are exactly [L + 1], the one of level
    [k] for [k = 0..L] having value [k], the region's full identifier
    followed by [-lv] and [k] as filter identifier, and a name built from
    the material and the index only. *)
Theorem C2_variables ET_parse (archivo_mapa : string) (root : Element) (g : Region) :
  ET_parse archivo_mapa = inr root ->
  In g (ordenar (buscar_regiones root)) ->
  let gens := ordenar (buscar_regiones root) in
  let t := fst (generar_xml_eggwars ET_parse archivo_mapa) in
  exists config,
    CONFIG_GENERADORES !! material g = Some config /\
    variables_de t = flat_map (vars_nivel gens) (seq 0 (max_levels + 1)) /\
    Permutation (variables_de t) (flat_map variables_esperadas gens) /\
    length (variables_esperadas g) = length config + 1 /\
    variables_esperadas g =
      map (fun k => {| filter_id := full_id g +:+ "-lv" +:+ str_int k;
                       var_name := "team_generator_" +:+ material g +:+ "_" +:+ num g;
                       team := team_id g;
                       value := k |})
          (seq 0 (length config + 1)) /\
    (forall k, k <= length config ->
       In (variable_de g k) (variables_de t) /\ value (variable_de g k) = k).
Proof.
  intros Hp Hg gens t.
  pose proof (ordenar_configurados root) as Hc.
  destruct (Hc g Hg) as [config E]. exists config.
  assert (Ht : variables_de t = flat_map (vars_nivel gens) (seq 0 (max_levels + 1))).
  { unfold t. rewrite (generar_ok _ _ _ Hp). cbn [fst].
    fold (traza root). rewrite variables_de_traza_root. apply variables_de_traza. }
  split; [exact E|]. split; [exact Ht|]. split.
  { rewrite Ht. now apply vars_nivel_perm. }
  unfold variables_esperadas. rewrite (config_de_Some _ _ E).
  replace (length config + 1) with (S (length config)) by lia.
  split; [now rewrite length_map, length_seq|]. split; [reflexivity|].
  intros k Hk. split; [|reflexivity].
  rewrite Ht. apply in_flat_map. exists k. split.
  - apply in_seq. apply CONFIG_niveles in E. lia.
  - apply in_vars_nivel. exists g. rewrite (config_de_Some _ _ E). auto.
Qed.

Lemma C2_witness :
  parse_ejemplo "map.xml" = inr mapa_ejemplo /\
  In region_ejemplo (ordenar (buscar_regiones mapa_ejemplo)) /\
  exists config,
    CONFIG_GENERADORES !! material region_ejemplo = Some config /\
    length (variables_esperadas region_ejemplo) = length config + 1.
Proof.
  assert (Hg : In region_ejemplo (ordenar (buscar_regiones mapa_ejemplo)))
    by (vm_compute; auto).
  split; [reflexivity|]. split; [exact Hg|].
  destruct (C2_variables parse_ejemplo "map.xml" mapa_ejemplo region_ejemplo
              eq_refl Hg) as (config & E & _ & _ & Hl & _).
  exists config. split; [exact E | exact Hl].
Defined.

(** C3.  On a document that parses, the spawners printed are, region by
    region in the sorted order, one per entry of the level list of the
    region's material, in the order of the list; each has the region's
    full identifier as spawn region, the entry's delay, and as filter the
    full identifier followed by [-lv] and the entry's level, which is the
    filter identifier of the variable printed for that region and level. *)
Theorem C3_spawners ET_parse (archivo_mapa : string) (root : Element) :
  ET_parse archivo_mapa = inr root ->
  let gens := ordenar (buscar_regiones root) in
  let t := fst (generar_xml_eggwars ET_parse archivo_mapa) in
  spawners_de t =
    flat_map (fun g =>
      map (fun nd => {| spawn_region := full_id g;
                        sp_delay := delay nd;
                        filter_ref := full_id g +:+ "-lv" +:+ str_int (lvl nd);
                        item_material := item_material_de (material g) |})
          (config_de g)) gens /\
  forall g, In g gens ->
    exists config,
      CONFIG_GENERADORES !! material g = Some config /\ config_de g = config /\
      forall nd, In nd config ->
        In (variable_de g (lvl nd)) (variables_de t) /\
        filter_id (variable_de g (lvl nd)) = filter_ref (spawner_de g nd).
Proof.
  intros Hp gens t.
  assert (Et : t = traza root).
  { unfold t. now rewrite (generar_ok _ _ _ Hp). }
  split.
  - rewrite Et, spawners_de_traza_root. apply spawners_de_traza.
  - intros g Hg. destruct (ordenar_configurados root g Hg) as [config E].
    exists config. split; [exact E|]. split; [now apply config_de_Some|].
    intros nd Hnd. split; [|reflexivity].
    rewrite Et, variables_de_traza_root. apply in_variables_de_traza.
    exists g, (lvl nd). rewrite (config_de_Some _ _ E).
    destruct (CONFIG_niveles _ _ E) as [Hseq Hmax].
    assert (Hl : In (lvl nd) (seq 1 (length config))).
    { rewrite <- Hseq. now apply in_map. }
    apply in_seq in Hl. repeat split; auto; lia.
Qed.

Lemma C3_witness :
  parse_ejemplo "map.xml" = inr mapa_ejemplo /\
  spawners_de (fst (generar_xml_eggwars parse_ejemplo "map.xml")) =
    flat_map (fun g =>
      map (fun nd => {| spawn_region := full_id g;
                        sp_delay := delay nd;
                        filter_ref := full_id g +:+ "-lv" +:+ str_int (lvl nd);
                        item_material := item_material_de (material g) |})
          (config_de g)) (ordenar (buscar_regiones mapa_ejemplo)).
Proof.
  split; [reflexivity|].
  exact (proj1 (C3_spawners parse_ejemplo "map.xml" mapa_ejemplo eq_refl)).
Defined.

Lemma full_id_buscar (root : Element) :
  map full_id (buscar_regiones root) = List.filter es_generador (ids root).
Proof.
  rewrite buscar_regiones_ids. induction (ids root) as [|v l IH]; [reflexivity|].
  cbn [flat_map List.filter]. rewrite map_app, IH. unfold es_generador.
  destruct (region_de v) as [g|] eqn:E; [|reflexivity].
  simpl. f_equal. unfold region_de in E.
  destruct (patron_match v) as [[[c m] n]|]; [|discriminate].
  destruct (CONFIG_GENERADORES !! m); [|discriminate]. now injection E as <-.
Qed.

(** C4, as stated, fails when two nodes carry the same identifier: one
    Region is recorded per node, so two Regions share it. *)
Lemma C4_counterexample :
  map full_id (buscar_regiones mapa_repetido) =
    ["team-red-generator-iron-1"; "team-red-generator-iron-1"] /\
  ~ List.NoDup (map full_id (buscar_regiones mapa_repetido)).
Proof.
  assert (E : map full_id (buscar_regiones mapa_repetido) =
              ["team-red-generator-iron-1"; "team-red-generator-iron-1"])
    by (vm_compute; reflexivity).
  split; [exact E|]. rewrite E. intros H.
  apply List.NoDup_cons_iff in H as [H _]. apply H. now left.
Qed.

(** C4 (amended).  On a document that parses, every variable and every
    spawner printed comes from a Region of the extracted list, and from
    no other Region of it.  The list holds one Region per node whose
    identifier is recorded, in document order, nothing being removed: no
    two Regions share a source identifier exactly when no two such nodes
    carry the same identifier. *)
Theorem C4_trazabilidad ET_parse (archivo_mapa : string) (root : Element) :
  ET_parse archivo_mapa = inr root ->
  let gens := ordenar (buscar_regiones root) in
  let t := fst (generar_xml_eggwars ET_parse archivo_mapa) in
  (forall v, In v (variables_de t) ->
     exists g, In g gens /\ (exists k, v = variable_de g k) /\
       forall g', In g' gens -> (exists k', v = variable_de g' k') -> g' = g) /\
  (forall s, In s (spawners_de t) ->
     exists g, In g gens /\ (exists nd, In nd (config_de g) /\ s = spawner_de g nd) /\
       forall g', In g' gens -> (exists nd', s = spawner_de g' nd') -> g' = g) /\
  map full_id (buscar_regiones root) = List.filter es_generador (ids root) /\
  (List.NoDup (map full_id gens) <-> List.NoDup (List.filter es_generador (ids root))).
Proof.
  intros Hp gens t.
  assert (Et : t = traza root).
  { unfold t. now rewrite (generar_ok _ _ _ Hp). }
  assert (Hbf : forall g, In g gens -> bien_formada g).
  { intros g Hg. now apply Orden.in_ordenar, buscar_bien_formada in Hg. }
  repeat split.
  - intros v Hv. rewrite Et, variables_de_traza_root in Hv.
    apply in_variables_de_traza in Hv as (g & k & Hg & _ & _ & ->).
    exists g. split; [exact Hg|]. split; [eauto|].
    intros g' Hg' [k' E]. symmetry.
    now apply (variable_de_inj g g' k k'); auto.
  - intros s Hs. rewrite Et, spawners_de_traza_root in Hs.
    apply in_spawners_de_traza in Hs as (g & nd & Hg & Hnd & ->).
    exists g. split; [exact Hg|]. split; [eauto|].
    intros g' Hg' [nd' E]. symmetry.
    now apply (spawner_de_inj g g' nd nd'); auto.
  - apply full_id_buscar.
  - rewrite <- full_id_buscar. apply Permutation.Permutation_NoDup, Permutation_map.
    apply Orden.ordenar_perm.
  - rewrite <- full_id_buscar. apply Permutation.Permutation_NoDup, Permutation_map.
    symmetry. apply Orden.ordenar_perm.
Qed.

Lemma C4_witness :
  parse_ejemplo "map.xml" = inr mapa_ejemplo /\
  (List.NoDup (map full_id (ordenar (buscar_regiones mapa_ejemplo))) <->
   List.NoDup (List.filter es_generador (ids mapa_ejemplo))).
Proof.
  split; [reflexivity|].
  exact (proj2 (proj2 (proj2
           (C4_trazabilidad parse_ejemplo "map.xml" mapa_ejemplo eq_refl)))).
Defined.

(** C5.  Whatever the parser answers, the run ends without an exception
    leaving [generar_xml_eggwars]: the handler turns any exception of the
    [try] block into one more printed line, after what was printed before
    it, and nothing runs again.  When the parse raises, what is printed
    is exactly one line, the error message with the text of the
    exception, and no variable or spawner is printed. *)
Theorem C5_errores ET_parse (archivo_mapa : string) :
  snd (generar_xml_eggwars ET_parse archivo_mapa) = inr tt /\
  (forall (body : Py.M unit) out e, body = (out, inl e) ->
     Py.try_except body
       (fun e => Py.print (ETexto ("Error procesando el archivo: " +:+ Py.str e))) =
     (out ++ [ETexto ("Error procesando el archivo: " +:+ Py.str e)], inr tt)) /\
  forall e, ET_parse archivo_mapa = inl e ->
    let t := fst (generar_xml_eggwars ET_parse archivo_mapa) in
    t = [ETexto ("Error procesando el archivo: " +:+ Py.str e)] /\
    stdout t = ["Error procesando el archivo: " +:+ Py.str e] /\
    variables_de t = [] /\ spawners_de t = [].
Proof.
  split; [|split].
  - destruct (ET_parse archivo_mapa) as [e|root] eqn:E.
    + now rewrite (generar_error _ _ _ E).
    + now rewrite (generar_ok _ _ _ E).
  - now intros body out e ->.
  - intros e E t. unfold t. rewrite (generar_error _ _ _ E). now cbn.
Qed.

Lemma C5_witness :
  parse_ejemplo "no.xml" = inl (Py.Exc "[Errno 2] No such file or directory") /\
  stdout (fst (generar_xml_eggwars parse_ejemplo "no.xml")) =
  ["Error procesando el archivo: [Errno 2] No such file or directory"].
Proof.
  split; [reflexivity|].
  exact (proj1 (proj2 (proj2 (proj2 (C5_errores parse_ejemplo "no.xml")) _ eq_refl))).
Defined.

(** On a document that parses and has no [id] attribute that [patron]
    matches with a captured material of the table, what is printed is
    exactly the no-regions message: no variable, no spawner, no error. *)
Lemma sin_regiones ET_parse (archivo_mapa : string) (root : Element) :
  ET_parse archivo_mapa = inr root ->
  (forall v t m n, In v (ids root) -> patron_match v = Some (t, m, n) ->
     CONFIG_GENERADORES !! m = None) ->
  generar_xml_eggwars ET_parse archivo_mapa =
    ([ETexto mensaje_sin_regiones], inr tt) /\
  stdout (fst (generar_xml_eggwars ET_parse archivo_mapa)) = [mensaje_sin_regiones] /\
  variables_de (fst (generar_xml_eggwars ET_parse archivo_mapa)) = [] /\
  spawners_de (fst (generar_xml_eggwars ET_parse archivo_mapa)) = [].
Proof.
  intros Hp Hno.
  assert (E : buscar_regiones root = []).
  { destruct (buscar_regiones root) as [|g l] eqn:E; [reflexivity | exfalso].
    assert (Hg : In g (buscar_regiones root)) by (rewrite E; now left).
    pose proof (buscar_bien_formada _ _ Hg) as Hb.
    apply in_buscar_regiones in Hg as [Hv _].
    apply bien_formada_inv in Hb as (Hm & _ & config & Hc).
    rewrite (Hno _ _ _ _ Hv Hm) in Hc. discriminate. }
  rewrite (generar_ok _ _ _ Hp), procesar_ok, E. now cbn.
Qed.

Example sin_regiones_ejemplo :
  stdout (fst (generar_xml_eggwars (fun _ => inr mapa_sin_generadores) "map.xml")) =
    [mensaje_sin_regiones].
Proof.
  apply (sin_regiones (fun _ => inr mapa_sin_generadores) "map.xml"
           mapa_sin_generadores eq_refl).
  intros v t m n [<-|[<-|[]]] Hm; vm_compute in Hm.
  - injection Hm as <- <- <-. reflexivity.
  - discriminate.
Qed.

(** C6.  The document whose only node has the identifier
    [team-red-generator-iron-1] followed by a line feed parses and holds
    no identifier of the grammar; the run does not print the no-regions
    message but the declarations of a generator: five variables and four
    spawners. *)
Theorem C6_salto_final :
  (forall v, In v (ids (nodo id_con_salto)) -> ~ gramatica v) /\
  fst (generar_xml_eggwars (fun _ => inr (nodo id_con_salto)) "map.xml") <>
    [ETexto mensaje_sin_regiones] /\
  length (variables_de
            (fst (generar_xml_eggwars (fun _ => inr (nodo id_con_salto)) "map.xml"))) = 5 /\
  length (spawners_de
            (fst (generar_xml_eggwars (fun _ => inr (nodo id_con_salto)) "map.xml"))) = 4.
Proof.
  split; [|split; [|split]].
  - intros v [<-|[]]. apply gramatica_sin_salto_final.
  - vm_compute. discriminate.
  - vm_compute. reflexivity.
  - vm_compute. reflexivity.
Qed.

(** C7.  On a document that parses, every spawner printed comes from an
    extracted region; its item line reads amount 1 and, as material, the
    display name of the region's material: [iron ingot] for [iron],
    [gold ingot] for [gold], [diamond] and [emerald] unchanged. *)
Theorem C7_item ET_parse (archivo_mapa : string) (root : Element) (s : EmittedSpawner) :
  ET_parse archivo_mapa = inr root ->
  In s (spawners_de (fst (generar_xml_eggwars ET_parse archivo_mapa))) ->
  (exists g, In g (ordenar (buscar_regiones root)) /\
     spawn_region s = full_id g /\
     item_material s = item_material_de (material g)) /\
  nth 1 (render (ESpawner s)) "" =
    tab +:+ "    <item amount=" +:+ q +:+ "1" +:+ q +:+
    " material=" +:+ q +:+ item_material s +:+ q +:+ "/>" /\
  item_material_de "iron" = "iron ingot" /\
  item_material_de "gold" = "gold ingot" /\
  item_material_de "diamond" = "diamond" /\
  item_material_de "emerald" = "emerald".
Proof.
  intros Hp Hs. rewrite (generar_ok _ _ _ Hp) in Hs. cbn [fst] in Hs.
  fold (traza root) in Hs. rewrite spawners_de_traza_root in Hs.
  apply in_spawners_de_traza in Hs as (g & nd & Hg & Hnd & ->).
  split; [exists g; auto|]. repeat split.
Qed.

Lemma C7_witness :
  parse_ejemplo "map.xml" = inr mapa_ejemplo /\
  In (spawner_de region_ejemplo (Nivel 2 "0.75s"))
     (spawners_de (fst (generar_xml_eggwars parse_ejemplo "map.xml"))) /\
  nth 1 (render (ESpawner (spawner_de region_ejemplo (Nivel 2 "0.75s")))) "" =
    tab +:+ "    <item amount=" +:+ q +:+ "1" +:+ q +:+
    " material=" +:+ q +:+ "iron ingot" +:+ q +:+ "/>".
Proof.
  assert (Hs : In (spawner_de region_ejemplo (Nivel 2 "0.75s"))
                 (spawners_de (fst (generar_xml_eggwars parse_ejemplo "map.xml"))))
    by (vm_compute; auto).
  split; [reflexivity|]. split; [exact Hs|].
  exact (proj1 (proj2 (C7_item parse_ejemplo "map.xml" mapa_ejemplo _ eq_refl Hs))).
Defined.

Lemma clave_le_campos (x y : Region) : clave_le x y <-> antes_o_igual x y.
Proof.
  unfold clave_le, clave, tuple_lt, antes_o_igual.
  destruct (String.eqb_spec (color y) (color x)) as [Ec|Ec]; cbn [negb].
  - destruct (String.eqb_spec (material y) (material x)) as [Em|Em]; cbn [negb].
    + split.
      * intros H. right. split; [congruence|]. right. split; [congruence|].
        destruct (String.ltb (num x) (num y)) eqn:L; [now left | right].
        now apply Orden.ltb_total.
      * intros [H|[_ [H|[_ [H|H]]]]].
        -- rewrite Ec, Orden.ltb_irrefl in H. discriminate.
        -- rewrite Em, Orden.ltb_irrefl in H. discriminate.
        -- now apply Orden.ltb_asym.
        -- rewrite H. apply Orden.ltb_irrefl.
    + split.
      * intros H. right. split; [congruence|]. left.
        destruct (String.ltb (material x) (material y)) eqn:L; [reflexivity|].
        exfalso. apply Em. symmetry. now apply Orden.ltb_total.
      * intros [H|[_ [H|[H _]]]].
        -- rewrite Ec, Orden.ltb_irrefl in H. discriminate.
        -- now apply Orden.ltb_asym.
        -- congruence.
  - split.
    + intros H. left.
      destruct (String.ltb (color x) (color y)) eqn:L; [reflexivity|].
      exfalso. apply Ec. symmetry. now apply Orden.ltb_total.
    + intros [H|[H _]]; [now apply Orden.ltb_asym | congruence].
Qed.

Lemma con_clave_campos (c m n : string) (l : list Region) :
  con_clave (c, m, n) l = con_campos c m n l.
Proof.
  unfold con_clave, con_campos. apply List.filter_ext. intros x.
  apply bool_decide_ext. unfold clave. split.
  - now intros [= -> -> ->].
  - now intros (-> & -> & ->).
Qed.

Lemma sorted_campos (l : list Region) :
  StronglySorted clave_le l <-> StronglySorted antes_o_igual l.
Proof.
  split; induction 1 as [|x l Hs IH Hx]; constructor; auto;
    (eapply List.Forall_impl; [|exact Hx]); intros y; apply clave_le_campos.
Qed.

(** C8.  The key of the sort is the triple (team label, material, index)
    of the region, and the declarations are printed for [ordenar] of the
    extracted list.  [ordenar l] holds the regions of [l], ordered by team
    label, then by material, then by index, all three compared as text
    (so index ["10"] comes before index ["2"]); regions with the same
    three fields keep the order they have in [l]; it is the only list
    with these properties, and sorting it again changes nothing. *)
Theorem C8_orden (root : Element) (l : list Region) :
  (forall x, clave x = (color x, material x, num x)) /\
  (variables_de (traza root) =
     flat_map (vars_nivel (ordenar (buscar_regiones root))) (seq 0 (max_levels + 1)) /\
   spawners_de (traza root) =
     flat_map (fun g => map (spawner_de g) (config_de g))
       (ordenar (buscar_regiones root))) /\
  Permutation (ordenar l) l /\
  StronglySorted antes_o_igual (ordenar l) /\
  (forall c m n, con_campos c m n (ordenar l) = con_campos c m n l) /\
  (forall l', StronglySorted antes_o_igual l' ->
     (forall c m n, con_campos c m n l' = con_campos c m n l) -> l' = ordenar l) /\
  ordenar (ordenar l) = ordenar l /\
  ordenar regiones_desordenadas =
    [MkRegion "team-blue-generator-iron-3" "blue" "iron" "3" "team-blue";
     MkRegion "team-red-generator-gold-1" "red" "gold" "1" "team-red";
     MkRegion "team-red-generator-iron-10" "red" "iron" "10" "team-red";
     MkRegion "team-red-generator-iron-2" "red" "iron" "2" "team-red"].
Proof.
  split; [reflexivity|]. split; [|split; [|split; [|split; [|split; [|split]]]]].
  - split.
    + rewrite variables_de_traza_root. apply variables_de_traza.
    + rewrite spawners_de_traza_root. apply spawners_de_traza.
  - apply Orden.ordenar_perm.
  - apply sorted_campos, Orden.ordenar_sorted.
  - intros c m n. rewrite <- !con_clave_campos. apply Orden.ordenar_con_clave.
  - intros l' Hs Hk.
    apply Orden.ordenada_unica; [now apply sorted_campos | apply Orden.ordenar_sorted |].
    intros [[c m] n]. rewrite Orden.ordenar_con_clave, !con_clave_campos. apply Hk.
  - apply Orden.ordenar_de_ordenada, Orden.ordenar_sorted.
  - vm_compute. reflexivity.
Qed.

Lemma C8_witness :
  StronglySorted antes_o_igual (ordenar regiones_ejemplo) /\
  ordenar (ordenar regiones_ejemplo) = ordenar regiones_ejemplo.
Proof.
  pose proof (C8_orden mapa_ejemplo regiones_ejemplo)
    as (_ & _ & _ & Hs & _ & _ & Hi & _).
  split; [exact Hs | exact Hi].
Defined.

(** C9.  On a document that parses, the team attribute of every variable
    printed is [team-] followed by the first group captured from the
    identifier of the region it comes from; nothing else of the document
    is consulted, and the example map has no element named [team-red]. *)
Theorem C9_team ET_parse (archivo_mapa : string) (root : Element) (v : EmittedVariable) :
  ET_parse archivo_mapa = inr root ->
  In v (variables_de (fst (generar_xml_eggwars ET_parse archivo_mapa))) ->
  (exists g k, In g (buscar_regiones root) /\ v = variable_de g k /\
     patron_match (full_id g) = Some (color g, material g, num g) /\
     team v = "team-" +:+ color g) /\
  (In (variable_de region_ejemplo 0) (variables_de (traza mapa_ejemplo)) /\
   team (variable_de region_ejemplo 0) = "team-red" /\
   ~ In "team-red" (ids mapa_ejemplo)).
Proof.
  intros Hp Hv. split.
  - rewrite (generar_ok _ _ _ Hp) in Hv. cbn [fst] in Hv.
    fold (traza root) in Hv. rewrite variables_de_traza_root in Hv.
    apply in_variables_de_traza in Hv as (g & k & Hg & _ & _ & ->).
    apply (proj1 (Orden.in_ordenar _ _)) in Hg. exists g, k.
    pose proof (buscar_bien_formada _ _ Hg) as Hb.
    apply bien_formada_inv in Hb as (Hm & Ht & _). repeat split; auto.
  - split; [vm_compute; auto|]. split; [reflexivity|].
    vm_compute. intros [H|[H|[H|[]]]]; discriminate.
Qed.

Lemma C9_witness :
  parse_ejemplo "map.xml" = inr mapa_ejemplo /\
  In (variable_de region_ejemplo 3)
     (variables_de (fst (generar_xml_eggwars parse_ejemplo "map.xml"))) /\
  exists g k, In g (buscar_regiones mapa_ejemplo) /\
    variable_de region_ejemplo 3 = variable_de g k /\
    patron_match (full_id g) = Some (color g, material g, num g) /\
    team (variable_de region_ejemplo 3) = "team-" +:+ color g.
Proof.
  assert (Hv : In (variable_de region_ejemplo 3)
                 (variables_de (fst (generar_xml_eggwars parse_ejemplo "map.xml"))))
    by (vm_compute; auto 10).
  split; [reflexivity|]. split; [exact Hv|].
  exact (proj1 (C9_team parse_ejemplo "map.xml" mapa_ejemplo _ eq_refl Hv)).
Defined.

(** C10, as stated, fails on [team-a-generator--generator--1]: the text
    between [team-] and [-1] holds the separator twice, the first group
    stops before the first occurrence, and the second group is the
    separator itself. *)
Lemma C10_counterexample :
  "team-a-generator--generator--1" =
    "team-" +:+ ("a" +:+ "-generator-" +:+ "-generator-") +:+ "-1" /\
  patron_match "team-a-generator--generator--1" = Some ("a", "-generator-", "1") /\
  Str.contains "-generator-" "-generator-" = true.
Proof. repeat split. Qed.

(** C10 (amended).  When [patron] matches, the first group is the longest
    team label for which the rest of the identifier still has the form
    [-generator-<material>-<number>]: no other way of cutting the
    identifier gives a longer one.  The separator can occur in the second
    group only as its last characters (an identifier ending in
    [-generator--<number>]), and never in a material of the table; the
    first group may contain it. *)
Theorem C10_capturas (s t m n : string) :
  patron_match s = Some (t, m, n) ->
  (exists cola, forma s t m n cola) /\
  (forall t' m' n' cola', forma s t' m' n' cola' ->
     String.length t' <= String.length t) /\
  (forall a b, m = a +:+ "-generator-" +:+ b -> b = "") /\
  (is_Some (CONFIG_GENERADORES !! m) -> Str.contains "-generator-" m = false) /\
  (patron_match "team-a-generator-b-generator-gold-12" =
     Some ("a-generator-b", "gold", "12") /\
   Str.contains "-generator-" "a-generator-b" = true).
Proof.
  intros H. apply patron_match_Some in H as (cola & Hf & Hmax).
  split; [now exists cola|]. split; [exact Hmax|]. split; [|split].
  - intros a b ->. destruct b as [|x b]; [reflexivity | exfalso].
    destruct Hf as [E [Ht Hct] [Hm Hcm] Hn Hcola].
    unfold sin_salto in Hcm. rewrite !StrFacts.all_append in Hcm.
    apply andb_prop in Hcm as [Ha Hb]. apply andb_prop in Hb as [_ Hb].
    assert (Hf' : forma s (t +:+ "-generator-" +:+ a) (String x b) n cola).
    { constructor; [| | | exact Hn | exact Hcola].
      - rewrite E. now rewrite !StrFacts.append_assoc.
      - split; [destruct t; [congruence | discriminate]|].
        unfold sin_salto. rewrite !StrFacts.all_append, Hct, Ha. reflexivity.
      - split; [discriminate | exact Hb]. }
    apply Hmax in Hf'. rewrite !StrFacts.length_append in Hf'. simpl in Hf'. lia.
  - intros [config E]. apply CONFIG_lookup in E as [[-> _]|[[-> _]|[-> _]]];
      reflexivity.
  - split; reflexivity.
Qed.

Lemma C10_witness :
  patron_match "team-a-generator--generator-x-1" = Some ("a-generator-", "x", "1") /\
  (forall t' m' n' cola',
     forma "team-a-generator--generator-x-1" t' m' n' cola' ->
     String.length t' <= String.length "a-generator-") /\
  (forall a b, "x" = a +:+ "-generator-" +:+ b -> b = "").
Proof.
  split; [reflexivity|].
  pose proof (C10_capturas "team-a-generator--generator-x-1"
                "a-generator-" "x" "1" eq_refl) as (_ & Hmax & Hsep & _).
  split; [exact Hmax | exact Hsep].
Defined.

(** * Further properties of the code *)

(** ** The pattern on identifiers built by the convention *)

Lemma guiones_append (a b : string) : guiones (a +:+ b) = guiones a + guiones b.
Proof. induction a as [|x a IH]; simpl; [reflexivity | rewrite IH; lia]. Qed.

Lemma guiones_digitos (n : string) : digitos n -> guiones n = 0.
Proof.
  unfold digitos. induction n as [|x n IH]; simpl; [reflexivity|].
  intros H. apply andb_prop in H as [Hx Hn]. rewrite (IH Hn).
  unfold es_guion. destruct (Ascii.eqb_spec x "-"%char) as [->|_];
    [discriminate Hx | reflexivity].
Qed.

(** A string is cut at its first hyphen in one way only. *)
Lemma primer_guion (a a' b b' : string) :
  guiones a = 0 -> guiones a' = 0 ->
  a +:+ "-" +:+ b = a' +:+ "-" +:+ b' -> a = a' /\ b = b'.
Proof.
  revert a'; induction a as [|x a IH]; intros [|x' a'] Ha Ha' E; simpl in *.
  - injection E as ->. auto.
  - injection E as <- _. discriminate Ha'.
  - injection E as -> _. discriminate Ha.
  - injection E as -> E.
    destruct (es_guion x'); [discriminate|].
    destruct (IH a' Ha Ha' E) as [-> ->]. auto.
Qed.


Lemma patron_match_id_de (t m n : string) :
  t <> "" -> sin_salto t ->
  m <> "" -> sin_salto m -> guiones m = 0 ->
  n <> "" -> digitos n ->
  patron_match (id_de t m n) = Some (t, m, n).
Proof.
  intros Ht Hct Hm Hcm Hgm Hn Hdn.
  assert (Hf : forma (id_de t m n) t m n "").
  { constructor; auto. unfold id_de. now rewrite StrFacts.append_nil_r. }
  destruct (patron_match_forma _ _ _ _ _ Hf) as (t' & m' & n' & E). rewrite E.
  destruct (patron_match_Some _ _ _ _ E) as (cola' & Hf' & Hmax).
  pose proof (Hmax _ _ _ _ Hf) as Hle.
  destruct Hf' as [E' [Ht' Hct'] [Hm' Hcm'] [Hn' Hdn'] Hcola'].
  unfold id_de in E'. apply String.app_inj in E'.
  destruct (StrFacts.append_split _ _ _ _ E' Hle) as (d & -> & ER).
  assert (Hcola0 : guiones cola' = 0) by (destruct Hcola' as [->| ->]; reflexivity).
  pose proof (f_equal guiones ER) as HC.
  rewrite !guiones_append in HC.
  rewrite Hgm, (guiones_digitos _ Hdn), (guiones_digitos _ Hdn'), Hcola0 in HC.
  change (guiones "-generator-") with 2 in HC. change (guiones "-") with 1 in HC.
  assert (Hd : d = "").
  { destruct d as [|x d]; [reflexivity | exfalso].
    simpl in ER. injection ER as <- _. simpl in HC. lia. }
  subst d. simpl in ER. injection ER as ER.
  destruct (primer_guion m m' n (n' +:+ cola') Hgm ltac:(lia) ER) as [<- En].
  rewrite StrFacts.append_nil_r.
  destruct Hcola' as [->| ->].
  - rewrite StrFacts.append_nil_r in En. now subst.
  - exfalso. subst n. unfold digitos in Hdn. rewrite StrFacts.all_append in Hdn.
    apply andb_prop in Hdn as [_ Hdn]. discriminate Hdn.
Qed.


(** X1.  Round trip of the naming convention: for a team label [t] that
    is non-empty and on one line (hyphens, and even the separator, are
    allowed in it), a material [m] that is non-empty, on one line and
    without hyphen, and an index [n] that is a non-empty run of digits,
    [patron] matches [team-t-generator-m-n] and its three groups are
    exactly [t], [m] and [n]. *)
Theorem X1_ida_y_vuelta (t m n : string) :
  t <> "" -> sin_salto t ->
  m <> "" -> sin_salto m -> guiones m = 0 ->
  n <> "" -> digitos n ->
  patron_match (id_de t m n) = Some (t, m, n).
Proof. apply patron_match_id_de. Qed.

Lemma X1_witness :
  patron_match (id_de "a-generator-b" "gold" "012") = Some ("a-generator-b", "gold", "012").
Proof.
  apply X1_ida_y_vuelta; try reflexivity; discriminate.
Defined.

(** X2.  An identifier built by the convention with a material of the
    table is never missed: wherever it appears as an [id] attribute of
    the document, step 1 records the Region with its team label, its
    material, its index and the team identifier [team-<team>]. *)
Theorem X2_convencion_detectada (root : Element) (t m n : string) :
  In (id_de t m n) (ids root) ->
  t <> "" -> sin_salto t ->
  is_Some (CONFIG_GENERADORES !! m) ->
  n <> "" -> digitos n ->
  In (MkRegion (id_de t m n) t m n ("team-" +:+ t)) (buscar_regiones root).
Proof.
  intros Hv Ht Hct [config Hc] Hn Hdn.
  apply in_buscar_regiones. cbn [full_id]. split; [exact Hv|].
  unfold region_de. rewrite patron_match_id_de; auto.
  - now rewrite Hc.
  - apply CONFIG_lookup in Hc as [[-> _]|[[-> _]|[-> _]]]; discriminate.
  - apply CONFIG_lookup in Hc as [[-> _]|[[-> _]|[-> _]]]; reflexivity.
  - apply CONFIG_lookup in Hc as [[-> _]|[[-> _]|[-> _]]]; reflexivity.
Qed.

Lemma X2_witness :
  In (MkRegion (id_de "red" "iron" "1") "red" "iron" "1" ("team-" +:+ "red"))
     (buscar_regiones mapa_ejemplo).
Proof.
  apply X2_convencion_detectada; try reflexivity; try discriminate.
  - vm_compute. auto.
  - vm_compute. eauto.
Defined.

(** ** The document *)

Lemma flat_map_flat_map {X Y Z} (f : Y -> list Z) (g : X -> list Y) (l : list X) :
  flat_map f (flat_map g l) = flat_map (fun x => flat_map f (g x)) l.
Proof.
  induction l as [|x l IH]; simpl; [reflexivity|].
  now rewrite flat_map_app, IH.
Qed.

Lemma ids_Elem (tag : string) (a : gmap string string) (cs : list Element) :
  ids (Elem tag a cs) = option_list (a !! "id") ++ flat_map ids cs.
Proof.
  unfold ids. cbn [iter flat_map attrib_of]. now rewrite flat_map_flat_map.
Qed.

(** X3.  Step 1 works node by node: the Regions of a tree are those of
    its root node followed by those of its children's subtrees, in
    order; a root without [id] attribute contributes nothing. *)
Theorem X3_por_subarboles (tag : string) (a : gmap string string) (cs : list Element) :
  buscar_regiones (Elem tag a cs) =
    buscar_regiones (Elem tag a []) ++ flat_map buscar_regiones cs /\
  (a !! "id" = None -> buscar_regiones (Elem tag a cs) = flat_map buscar_regiones cs).
Proof.
  assert (E : buscar_regiones (Elem tag a cs) =
              buscar_regiones (Elem tag a []) ++ flat_map buscar_regiones cs).
  { rewrite !buscar_regiones_ids, !ids_Elem. cbn [flat_map].
    rewrite app_nil_r, flat_map_app, flat_map_flat_map.
    f_equal. apply flat_map_ext. intros c. now rewrite buscar_regiones_ids. }
  split; [exact E|]. intros Hid. rewrite E.
  rewrite buscar_regiones_ids, ids_Elem, Hid. reflexivity.
Qed.

Lemma X3_witness :
  (∅ : gmap string string) !! "id" = None /\
  buscar_regiones (Elem "map" ∅ [mapa_ejemplo; mapa_repetido]) =
    flat_map buscar_regiones [mapa_ejemplo; mapa_repetido].
Proof.
  split; [reflexivity|].
  exact (proj2 (X3_por_subarboles "map" ∅ [mapa_ejemplo; mapa_repetido]) eq_refl).
Defined.

Lemma buscar_por_generadores (root : Element) :
  buscar_regiones root =
  flat_map (fun v => option_list (region_de v)) (ids_generadores root).
Proof.
  rewrite buscar_regiones_ids. unfold ids_generadores.
  induction (ids root) as [|v l IH]; [reflexivity|].
  cbn [flat_map List.filter]. rewrite IH. unfold es_generador.
  destruct (region_de v) eqn:E; cbn [flat_map]; now rewrite ?E.
Qed.

(** X4.  Only the identifiers that step 1 records, in document order,
    matter: two documents that agree on them give the same run, whatever
    their tags, their nesting, their other attributes and their other
    identifiers. *)
Theorem X4_solo_los_ids ET_parse1 ET_parse2 (archivo1 archivo2 : string)
    (root1 root2 : Element) :
  ET_parse1 archivo1 = inr root1 ->
  ET_parse2 archivo2 = inr root2 ->
  ids_generadores root1 = ids_generadores root2 ->
  generar_xml_eggwars ET_parse1 archivo1 = generar_xml_eggwars ET_parse2 archivo2.
Proof.
  intros H1 H2 E.
  rewrite (generar_ok _ _ _ H1), (generar_ok _ _ _ H2), !procesar_ok.
  now rewrite !buscar_por_generadores, E.
Qed.

Lemma X4_witness :
  generar_xml_eggwars (fun _ => inr mapa_ejemplo) "a.xml" =
  generar_xml_eggwars (fun _ => inr mapa_ejemplo_bis) "b.xml".
Proof.
  apply (X4_solo_los_ids _ _ _ _ mapa_ejemplo mapa_ejemplo_bis);
    [reflexivity | reflexivity | vm_compute; reflexivity].
Defined.

(** ** The order of the nodes *)

Lemma filter_perm {X} (f : X -> bool) (l l' : list X) :
  Permutation l l' -> Permutation (List.filter f l) (List.filter f l').
Proof.
  induction 1 as [|x l l' _ IH|x y l|l l' l'' _ IH1 _ IH2]; cbn [List.filter].
  - reflexivity.
  - destruct (f x); [now constructor | exact IH].
  - destruct (f x), (f y); try reflexivity. apply perm_swap.
  - now transitivity (List.filter f l').
Qed.

(** Two arrangements of copies of one value are the same list. *)
Lemma perm_iguales {X} (l l' : list X) :
  Permutation l l' -> (forall x y, In x l -> In y l -> x = y) -> l = l'.
Proof.
  induction 1 as [|x l l' _ IH|x y l|l l' l'' H1 IH1 _ IH2]; intros Heq.
  - reflexivity.
  - f_equal. apply IH. intros a b Ha Hb. apply Heq; now right.
  - rewrite (Heq x y); [reflexivity | right; now left | now left].
  - rewrite (IH1 Heq). apply IH2. intros a b Ha Hb.
    apply Heq; apply (Permutation_in _ (Permutation_sym H1)); assumption.
Qed.

(** A Region recorded for an identifier of the grammar is determined by
    its key: the identifier is rebuilt from the three groups. *)
Lemma region_por_clave (g g' : Region) :
  bien_formada g -> bien_formada g' ->
  gramatica (full_id g) -> gramatica (full_id g') ->
  clave g = clave g' -> g = g'.
Proof.
  assert (H : forall r, bien_formada r -> gramatica (full_id r) ->
                full_id r = id_de (color r) (material r) (num r)).
  { intros r Hb Hg. apply bien_formada_inv in Hb as (Hm & _).
    apply patron_match_Some in Hm as (cola & Hf & _).
    destruct (forma_cola _ _ _ _ _ Hf) as [->| ->].
    - rewrite (forma_eq _ _ _ _ _ Hf). unfold id_de.
      now rewrite StrFacts.append_nil_r.
    - exfalso. rewrite (forma_eq _ _ _ _ _ Hf) in Hg.
      apply (gramatica_sin_salto_final
               ("team-" +:+ color r +:+ "-generator-" +:+ material r +:+ "-" +:+ num r)).
      now rewrite !StrFacts.append_assoc. }
  intros Hb Hb' Hg Hg' Hk. apply bien_formada_eq; auto.
  rewrite (H g Hb Hg), (H g' Hb' Hg'). unfold clave in Hk.
  now injection Hk as -> -> ->.
Qed.

Lemma in_buscar_generadores (root : Element) (g : Region) :
  In g (buscar_regiones root) -> In (full_id g) (ids_generadores root).
Proof.
  intros H. apply in_buscar_regiones in H as [Hv Hr].
  apply filter_In. split; [exact Hv|]. unfold es_generador. now rewrite Hr.
Qed.

(** X5.  When every identifier recorded is one of the grammar, the run
    does not depend on the order of the nodes: two documents whose
    recorded identifiers are the same up to their order print the same. *)
Theorem X5_orden_de_los_nodos ET_parse1 ET_parse2 (archivo1 archivo2 : string)
    (root1 root2 : Element) :
  ET_parse1 archivo1 = inr root1 ->
  ET_parse2 archivo2 = inr root2 ->
  Permutation (ids_generadores root1) (ids_generadores root2) ->
  (forall v, In v (ids_generadores root1) -> gramatica v) ->
  generar_xml_eggwars ET_parse1 archivo1 = generar_xml_eggwars ET_parse2 archivo2.
Proof.
  intros H1 H2 Hp Hg.
  assert (Hg2 : forall v, In v (ids_generadores root2) -> gramatica v).
  { intros v Hv. apply Hg. now apply (Permutation_in _ (Permutation_sym Hp)). }
  assert (Hr : Permutation (buscar_regiones root1) (buscar_regiones root2)).
  { rewrite !buscar_por_generadores. now apply Permutation_flat_map. }
  assert (Ho : ordenar (buscar_regiones root1) = ordenar (buscar_regiones root2)).
  { apply Orden.ordenada_unica; try apply Orden.ordenar_sorted.
    intros k. rewrite !Orden.ordenar_con_clave. unfold con_clave.
    apply perm_iguales; [now apply filter_perm|].
    intros x y Hx Hy. apply filter_In in Hx as [Hx Hkx], Hy as [Hy Hky].
    apply bool_decide_eq_true_1 in Hkx, Hky.
    apply region_por_clave; try congruence.
    - now apply (buscar_bien_formada root1).
    - now apply (buscar_bien_formada root1).
    - now apply Hg, in_buscar_generadores.
    - now apply Hg, in_buscar_generadores. }
  rewrite (generar_ok _ _ _ H1), (generar_ok _ _ _ H2), !procesar_ok, Ho.
  destruct (buscar_regiones root1) as [|g1 l1], (buscar_regiones root2) as [|g2 l2];
    try reflexivity.
  - apply Permutation_nil in Hr. discriminate.
  - symmetry in Hr. apply Permutation_nil in Hr. discriminate.
Qed.

Lemma X5_witness :
  Permutation (ids_generadores mapa_dos) (ids_generadores mapa_dos_invertido) /\
  (forall v, In v (ids_generadores mapa_dos) -> gramatica v) /\
  generar_xml_eggwars (fun _ => inr mapa_dos) "a.xml" =
  generar_xml_eggwars (fun _ => inr mapa_dos_invertido) "b.xml".
Proof.
  assert (Hp : Permutation (ids_generadores mapa_dos)
                 (ids_generadores mapa_dos_invertido)).
  { change (ids_generadores mapa_dos)
      with ["team-red-generator-iron-1"; "team-blue-generator-gold-2"].
    change (ids_generadores mapa_dos_invertido)
      with ["team-blue-generator-gold-2"; "team-red-generator-iron-1"].
    apply perm_swap. }
  assert (Hg : forall v, In v (ids_generadores mapa_dos) -> gramatica v).
  { intros v [<-|[<-|[]]].
    - exists "red", "iron", "1". constructor; auto; split; (discriminate || reflexivity).
    - exists "blue", "gold", "2". constructor; auto; split; (discriminate || reflexivity). }
  split; [exact Hp|]. split; [exact Hg|].
  exact (X5_orden_de_los_nodos _ _ "a.xml" "b.xml" mapa_dos mapa_dos_invertido
           eq_refl eq_refl Hp Hg).
Defined.

(** ** The layout of what is printed *)

Lemma spawners_de_traza_nivel (gens : list Region) (i : nat) :
  spawners_de (traza_nivel gens i) = [].
Proof.
  unfold traza_nivel. rewrite spawners_de_flat_map.
  rewrite (flat_map_ext _ (fun _ => [])); [apply flat_map_nil|].
  intros g. now destruct (i <=? length (config_de g))%nat.
Qed.

Lemma variables_de_traza_spawners (gens : list Region) :
  variables_de (traza_spawners gens) = [].
Proof.
  unfold traza_spawners. rewrite variables_de_flat_map.
  rewrite (flat_map_ext _ (fun _ => [])); [apply flat_map_nil|].
  intros g. rewrite variables_de_flat_map. apply flat_map_nil.
Qed.

(** X6.  On a document that parses, what is printed is a first block
    without any spawner followed by a second block without any variable:
    every variable line comes before every spawner line. *)
Theorem X6_dos_bloques ET_parse (archivo_mapa : string) (root : Element) :
  ET_parse archivo_mapa = inr root ->
  exists pre post,
    fst (generar_xml_eggwars ET_parse archivo_mapa) = pre ++ post /\
    spawners_de pre = [] /\ variables_de post = [].
Proof.
  intros Hp. rewrite (generar_ok _ _ _ Hp), procesar_ok. cbn [fst].
  destruct (buscar_regiones root) as [|g0 l].
  - exists [ETexto mensaje_sin_regiones], []. repeat split.
  - set (gens := ordenar (g0 :: l)). unfold traza_declaraciones.
    exists ([ETexto nl; ETexto ""; ETexto ""; ETexto (nl +:+ tab)] ++
            flat_map (fun g => [EVariable (variable_de g 0)]) gens ++
            flat_map (fun i => ETexto (nl +:+ tab) :: traza_nivel gens i)
              (range 1 (max_levels + 1)) ++
            [ETexto (nl +:+ nl); ETexto ""]),
           (traza_spawners gens).
    split; [now rewrite <- !app_assoc|]. split.
    + rewrite !spawners_de_app, !spawners_de_flat_map.
      rewrite (flat_map_ext (fun x => spawners_de [EVariable (variable_de x 0)])
                 (fun _ => [])) by reflexivity.
      rewrite (flat_map_ext
                 (fun x => spawners_de (ETexto (nl +:+ tab) :: traza_nivel gens x))
                 (fun _ => [])) by (intros i; apply spawners_de_traza_nivel).
      now rewrite !flat_map_nil.
    + apply variables_de_traza_spawners.
Qed.

Lemma X6_witness :
  exists pre post,
    fst (generar_xml_eggwars parse_ejemplo "map.xml") = pre ++ post /\
    spawners_de pre = [] /\ variables_de post = [].
Proof.
  exact (X6_dos_bloques parse_ejemplo "map.xml" mapa_ejemplo eq_refl).
Defined.

Lemma sorted_app {X} (R : X -> X -> Prop) (l1 l2 : list X) :
  StronglySorted R l1 -> StronglySorted R l2 ->
  (forall x y, In x l1 -> In y l2 -> R x y) ->
  StronglySorted R (l1 ++ l2).
Proof.
  induction 1 as [|x l1 Hs IH Hx]; intros H2 Hc; [exact H2|].
  cbn [app]. constructor.
  - apply IH; [exact H2|]. intros a b Ha Hb. apply Hc; [now right | exact Hb].
  - apply Forall_app. split; [exact Hx|].
    apply List.Forall_forall. intros y Hy. apply Hc; [now left | exact Hy].
Qed.

Lemma niveles_crecientes (gens : list Region) (n a : nat) :
  StronglySorted le (map value (flat_map (vars_nivel gens) (seq a n))) /\
  forall x, In x (map value (flat_map (vars_nivel gens) (seq a n))) ->
            a <= x /\ x < a + n.
Proof.
  revert a; induction n as [|n IH]; intros a; cbn [seq flat_map].
  - split; [constructor | intros x []].
  - destruct (IH (S a)) as [Hs Hb]. rewrite map_app.
    assert (Ha : forall x, In x (map value (vars_nivel gens a)) -> x = a).
    { intros x Hx. apply in_map_iff in Hx as (v & <- & Hv).
      now apply in_vars_nivel in Hv as (g & _ & _ & ->). }
    split.
    + apply sorted_app; [|exact Hs|].
      * induction (map value (vars_nivel gens a)) as [|x l IHl]; constructor.
        -- apply IHl. intros y Hy. apply Ha. now right.
        -- apply List.Forall_forall. intros y Hy.
           rewrite (Ha x (or_introl eq_refl)), (Ha y (or_intror Hy)). lia.
      * intros x y Hx Hy. apply Ha in Hx. apply Hb in Hy. lia.
    + intros x Hx. apply in_app_iff in Hx as [Hx|Hx].
      * apply Ha in Hx. lia.
      * apply Hb in Hx. lia.
Qed.

(** X7.  On a document that parses, the variables are printed level by
    level: along the output their values never decrease, and none is
    above [max_levels]. *)
Theorem X7_por_niveles ET_parse (archivo_mapa : string) (root : Element) :
  ET_parse archivo_mapa = inr root ->
  let vs := variables_de (fst (generar_xml_eggwars ET_parse archivo_mapa)) in
  StronglySorted le (map value vs) /\
  forall v, In v vs -> value v <= max_levels.
Proof.
  intros Hp vs.
  assert (E : vs = flat_map (vars_nivel (ordenar (buscar_regiones root)))
                     (seq 0 (max_levels + 1))).
  { unfold vs. rewrite (generar_ok _ _ _ Hp). cbn [fst]. fold (traza root).
    rewrite variables_de_traza_root. apply variables_de_traza. }
  rewrite E.
  destruct (niveles_crecientes (ordenar (buscar_regiones root)) (max_levels + 1) 0)
    as [Hs Hb].
  split; [exact Hs|]. intros v Hv.
  assert (Hin : In (value v)
                  (map value (flat_map (vars_nivel (ordenar (buscar_regiones root)))
                                (seq 0 (max_levels + 1))))) by now apply in_map.
  apply Hb in Hin. lia.
Qed.

Lemma X7_witness :
  map value (variables_de (fst (generar_xml_eggwars parse_ejemplo "map.xml"))) =
    [0; 1; 2; 3; 4] /\
  StronglySorted le
    (map value (variables_de (fst (generar_xml_eggwars parse_ejemplo "map.xml")))).
Proof.
  split; [vm_compute; reflexivity|].
  exact (proj1 (X7_por_niveles parse_ejemplo "map.xml" mapa_ejemplo eq_refl)).
Defined.

(** ** Filter identifiers *)

Lemma length_str_int (k : nat) :
  k <= max_levels -> String.length (str_int k) = 1.
Proof.
  unfold max_levels. intros H.
  destruct k as [|[|[|[|[|k]]]]]; [reflexivity .. | lia].
Qed.

Lemma str_int_inj (k k' : nat) :
  k <= max_levels -> k' <= max_levels -> str_int k = str_int k' -> k = k'.
Proof.
  unfold max_levels. intros H H'.
  destruct k as [|[|[|[|[|k]]]]]; [| | | | |lia];
    (destruct k' as [|[|[|[|[|k']]]]]; [| | | | |lia]);
    vm_compute; congruence.
Qed.

(** A filter identifier tells the region identifier and the level. *)
Lemma filtro_inj (a a' : string) (k k' : nat) :
  k <= max_levels -> k' <= max_levels ->
  a +:+ "-lv" +:+ str_int k = a' +:+ "-lv" +:+ str_int k' ->
  a = a' /\ k = k'.
Proof.
  intros Hk Hk' E. apply StrFacts.append_inj_r in E as [Ea El].
  - split; [exact Ea|]. apply String.app_inj in El. now apply str_int_inj.
  - rewrite !StrFacts.length_append, !length_str_int by assumption. reflexivity.
Qed.

Lemma in_filtros_nivel (gens : list Region) (k : nat) (f : string) :
  In f (map filter_id (vars_nivel gens k)) ->
  exists g, In g gens /\ f = full_id g +:+ "-lv" +:+ str_int k.
Proof.
  intros H. apply in_map_iff in H as (v & <- & Hv).
  apply in_vars_nivel in Hv as (g & Hg & _ & ->). eauto.
Qed.

Lemma NoDup_filtros_nivel (gens : list Region) (k : nat) :
  k <= max_levels ->
  List.NoDup (map full_id gens) -> List.NoDup (map filter_id (vars_nivel gens k)).
Proof.
  intros Hk. induction gens as [|g gens IH]; intros Hn; [constructor|].
  cbn [map] in Hn. apply List.NoDup_cons_iff in Hn as [Hg Hn].
  unfold vars_nivel. cbn [flat_map]. fold (vars_nivel gens k).
  destruct (k <=? length (config_de g))%nat; [|now apply IH].
  cbn [app map]. constructor; [|now apply IH].
  intros Hin. apply in_filtros_nivel in Hin as (g' & Hg' & E).
  cbn [filter_id variable_de] in E.
  apply filtro_inj in E as [E _]; auto.
  apply Hg. rewrite E. now apply in_map.
Qed.

Lemma NoDup_filtros (gens : list Region) (n a : nat) :
  a + n <= max_levels + 1 ->
  List.NoDup (map full_id gens) ->
  List.NoDup (map filter_id (flat_map (vars_nivel gens) (seq a n))).
Proof.
  intros Hb Hn. revert a Hb; induction n as [|n IH]; intros a Hb; cbn [seq flat_map].
  - constructor.
  - rewrite map_app. apply List.NoDup_app.
    + apply NoDup_filtros_nivel; [lia | exact Hn].
    + apply IH. lia.
    + intros f Hf Hf'. apply in_filtros_nivel in Hf as (g & _ & ->).
      apply in_map_iff in Hf' as (v & Ev & Hv).
      apply in_flat_map in Hv as (k & Hk & Hv). apply in_seq in Hk.
      apply in_vars_nivel in Hv as (g' & _ & _ & ->).
      cbn [filter_id variable_de] in Ev.
      apply filtro_inj in Ev as [_ Ev]; lia.
Qed.

Lemma NoDup_full_id_ordenar (root : Element) :
  List.NoDup (map full_id (ordenar (buscar_regiones root))) <->
  List.NoDup (ids_generadores root).
Proof.
  unfold ids_generadores. rewrite <- full_id_buscar.
  split; apply Permutation.Permutation_NoDup, Permutation_map;
    [|symmetry]; apply Orden.ordenar_perm.
Qed.

(** X8.  On a document that parses, the filter identifiers of the
    variables printed are pairwise distinct exactly when the identifiers
    recorded in step 1 are: distinct generators never share a filter, and
    a repeated identifier repeats its filters. *)
Theorem X8_filtros_distintos ET_parse (archivo_mapa : string) (root : Element) :
  ET_parse archivo_mapa = inr root ->
  (List.NoDup (map filter_id
                 (variables_de (fst (generar_xml_eggwars ET_parse archivo_mapa)))) <->
   List.NoDup (ids_generadores root)).
Proof.
  intros Hp. rewrite (generar_ok _ _ _ Hp). cbn [fst]. fold (traza root).
  rewrite variables_de_traza_root, variables_de_traza.
  rewrite <- NoDup_full_id_ordenar.
  set (gens := ordenar (buscar_regiones root)).
  split.
  - unfold max_levels. cbn [Nat.add seq flat_map]. rewrite map_app.
    intros H. apply NoDup_app_remove_r in H.
    assert (E : map filter_id (vars_nivel gens 0) =
                map (fun a => a +:+ "-lv0") (map full_id gens)).
    { unfold vars_nivel. clear H. induction gens as [|g l IH]; [reflexivity|].
      cbn [flat_map map Nat.leb app] in *. now rewrite IH. }
    rewrite E in H. now apply List.NoDup_map_inv in H.
  - apply NoDup_filtros. lia.
Qed.

Lemma X8_witness :
  List.NoDup (ids_generadores mapa_dos) /\
  List.NoDup (map filter_id
                (variables_de (fst (generar_xml_eggwars (fun _ => inr mapa_dos) "a.xml")))).
Proof.
  assert (H : List.NoDup (ids_generadores mapa_dos)).
  { change (ids_generadores mapa_dos)
      with ["team-red-generator-iron-1"; "team-blue-generator-gold-2"].
    repeat constructor; simpl; intuition discriminate. }
  split; [exact H|].
  exact (proj2 (X8_filtros_distintos (fun _ => inr mapa_dos) "a.xml" mapa_dos eq_refl) H).
Defined.

Lemma nivel_de_entrada (g : Region) (config : list nivel) (nd : nivel) :
  CONFIG_GENERADORES !! material g = Some config -> In nd config ->
  1 <= lvl nd /\ lvl nd <= length config /\ lvl nd <= max_levels.
Proof.
  intros E Hnd. destruct (CONFIG_niveles _ _ E) as [Hseq Hmax].
  assert (Hl : In (lvl nd) (seq 1 (length config)))
    by (rewrite <- Hseq; now apply in_map).
  apply in_seq in Hl. lia.
Qed.

(** X9.  On a document that parses, a variable of level 0 is the filter
    of no spawner, and a variable of a level from 1 up is the filter of a
    spawner of its own region: nothing is spawned at level 0, and every
    other level printed has its spawner. *)
Theorem X9_nivel_cero ET_parse (archivo_mapa : string) (root : Element)
    (v : EmittedVariable) :
  ET_parse archivo_mapa = inr root ->
  let t := fst (generar_xml_eggwars ET_parse archivo_mapa) in
  In v (variables_de t) ->
  (value v = 0 -> forall s, In s (spawners_de t) -> filter_ref s <> filter_id v) /\
  (1 <= value v ->
   exists s, In s (spawners_de t) /\ filter_ref s = filter_id v /\
             filter_id v = spawn_region s +:+ "-lv" +:+ str_int (value v)).
Proof.
  intros Hp t Hv.
  assert (Et : t = traza root) by (unfold t; now rewrite (generar_ok _ _ _ Hp)).
  rewrite Et in *. clear Et t.
  rewrite variables_de_traza_root in Hv.
  apply in_variables_de_traza in Hv as (g & k & Hg & Hk & Hmax & ->).
  destruct (ordenar_configurados root g Hg) as [config E].
  rewrite (config_de_Some _ _ E) in Hk. cbn [value filter_id variable_de].
  split.
  - intros -> s Hs Heq. rewrite spawners_de_traza_root in Hs.
    apply in_spawners_de_traza in Hs as (g' & nd & Hg' & Hnd & ->).
    destruct (ordenar_configurados root g' Hg') as [config' E'].
    rewrite (config_de_Some _ _ E') in Hnd.
    destruct (nivel_de_entrada _ _ _ E' Hnd) as (H1 & _ & H4).
    cbn [filter_ref spawner_de] in Heq.
    apply filtro_inj in Heq as [_ Heq]; unfold max_levels in *; lia.
  - intros H1.
    assert (Hin : In k (map lvl config)).
    { rewrite (proj1 (CONFIG_niveles _ _ E)). apply in_seq. lia. }
    apply in_map_iff in Hin as (nd & <- & Hnd).
    exists (spawner_de g nd). split; [|split; reflexivity].
    rewrite spawners_de_traza_root. apply in_spawners_de_traza.
    exists g, nd. rewrite (config_de_Some _ _ E). auto.
Qed.

Lemma X9_witness :
  In (variable_de region_ejemplo 0)
     (variables_de (fst (generar_xml_eggwars parse_ejemplo "map.xml"))) /\
  forall s, In s (spawners_de (fst (generar_xml_eggwars parse_ejemplo "map.xml"))) ->
            filter_ref s <> "team-red-generator-iron-1-lv0".
Proof.
  assert (Hv : In (variable_de region_ejemplo 0)
                 (variables_de (fst (generar_xml_eggwars parse_ejemplo "map.xml"))))
    by (vm_compute; auto).
  split; [exact Hv|].
  exact (proj1 (X9_nivel_cero parse_ejemplo "map.xml" mapa_ejemplo _ eq_refl Hv)
           eq_refl).
Defined.

(** ** Materials *)

(** X10.  Whatever the document, no Region has a material outside
    [iron], [gold] and [diamond], and every spawner printed drops
    [iron ingot], [gold ingot] or [diamond]: an identifier whose material
    is [emerald] is skipped in step 1 like any other material missing
    from the table, so the [emerald] case of the item mapping is never
    reached. *)
Theorem X10_materiales ET_parse (archivo_mapa : string) (root : Element) :
  ET_parse archivo_mapa = inr root ->
  (forall g, In g (buscar_regiones root) ->
     material g = "iron" \/ material g = "gold" \/ material g = "diamond") /\
  (forall s, In s (spawners_de (fst (generar_xml_eggwars ET_parse archivo_mapa))) ->
     (item_material s = "iron ingot" \/ item_material s = "gold ingot" \/
      item_material s = "diamond") /\ item_material s <> "emerald") /\
  (forall v t n, In v (ids root) -> patron_match v = Some (t, "emerald", n) ->
     forall g, In g (buscar_regiones root) -> full_id g <> v).
Proof.
  intros Hp.
  assert (Hm : forall g, In g (ordenar (buscar_regiones root)) ->
                 material g = "iron" \/ material g = "gold" \/ material g = "diamond").
  { intros g Hg. destruct (ordenar_configurados root g Hg) as [config E].
    apply CONFIG_lookup in E as [[-> _]|[[-> _]|[-> _]]]; auto. }
  split; [|split].
  - intros g Hg. apply Hm. now apply Orden.in_ordenar.
  - intros s Hs. rewrite (generar_ok _ _ _ Hp) in Hs. cbn [fst] in Hs.
    fold (traza root) in Hs. rewrite spawners_de_traza_root in Hs.
    apply in_spawners_de_traza in Hs as (g & nd & Hg & _ & ->).
    cbn [item_material spawner_de].
    destruct (Hm g Hg) as [->|[->| ->]]; (split; [auto | discriminate]).
  - intros v t n Hv Hmatch g Hg <-.
    pose proof (proj2 (Orden.in_ordenar _ _) Hg) as Hg'.
    apply buscar_bien_formada, bien_formada_inv in Hg as (Hmg & _).
    rewrite Hmatch in Hmg. injection Hmg as _ Hmat _.
    destruct (Hm g Hg') as [H|[H|H]]; rewrite H in Hmat; discriminate.
Qed.

Lemma X10_witness :
  parse_ejemplo "map.xml" = inr mapa_ejemplo /\
  forall g, In g (buscar_regiones mapa_ejemplo) ->
    material g = "iron" \/ material g = "gold" \/ material g = "diamond".
Proof.
  split; [reflexivity|].
  exact (proj1 (X10_materiales parse_ejemplo "map.xml" mapa_ejemplo eq_refl)).
Defined.
